(** * cachemap: a generic map behind a reader/writer lock

    Shallow embedding of [cachemap/cachemap.go] and of the part of Go's
    runtime and of [encoding/gob] that the package calls into.

    - A Go [map[K]V] is a reference that may be [nil]; it is modelled as
      [option (gmap K V)], [None] standing for the nil map.  Reading a nil
      map behaves like reading an empty one, [delete] on it does nothing,
      and an assignment to one of its entries panics.
    - Methods on [*CacheMap] are computations in a small state monad over
      the struct, whose result is either a returned value or a panic.
    - [Import] stores the caller's map itself and [Export] returns a copy;
      no property below goes on to write to a map that was passed in, so a
      map is a value here and not an address in a heap.
    - What [encoding/gob] writes depends on the run: on the id the process
      has given the map type and on the order in which a call ranges over
      the map.  [GobEncode] takes both as an argument, and statements
      about it hold for every run.
    - [sync.RWMutex] holds no data.  The embedding is sequential: a call
      runs to completion before the next one starts, so an acquisition
      always finds the mutex free.  Mutual exclusion between goroutines is
      outside the embedding. *)

From Stdlib Require Import ZArith Lia.
From Stdlib.Strings Require Import Byte.
From stdpp Require Import base option list gmap fin_maps strings pretty.

Local Open Scope Z_scope.

(** ** Go runtime *)

Module Go.

(** [map[K]V]: [None] is the nil map. *)
Abbreviation gomap K V := (option (gmap K V)).

Section Maps.
Context {K : Type} `{Countable K} {V : Type}.

(** The key/value pairs a map holds; a nil map holds none. *)
Definition entries (mp : gomap K V) : gmap K V :=
  match mp with
  | Some g => g
  | None => ∅
  end.

(** [make(map[K]V)] *)
Definition make : gomap K V := Some ∅.

(** [len(mp)]; Go's [int] is 64 bits wide and a map never holds as many
    as [2^63] entries, so no wrap-around is written out. *)
Definition len (mp : gomap K V) : Z := Z.of_nat (size (entries mp)).

(** [maps.All(mp)]: the sequence of pairs, in an unspecified order. *)
Definition All (mp : gomap K V) : list (K * V) := map_to_list (entries mp).

(** [maps.Collect(seq)]: a fresh map, each pair assigned in turn. *)
Definition Collect (seq : list (K * V)) : gomap K V :=
  Some (fold_left (fun acc kv => <[kv.1 := kv.2]> acc) seq ∅).
End Maps.

(** The zero value of a type ([var x V]). *)
Class Zero (V : Type) := zero : V.
#[export] Instance Z_zero : Zero Z := 0.
#[export] Instance string_zero : Zero string := EmptyString.
#[export] Instance bool_zero : Zero bool := false.

(** [error] values met in this package. *)
Inductive error : Type :=
| io_EOF
| io_ErrUnexpectedEOF
| errors_New (msg : string)
| wrapError (msg : string) (err : error).

(** [err.Error()] *)
Definition Error (e : error) : string :=
  match e with
  | io_EOF => "EOF"
  | io_ErrUnexpectedEOF => "unexpected EOF"
  | errors_New msg => msg
  | wrapError msg _ => msg
  end.

(** [fmt.Errorf(prefix + "%w", err)] *)
Definition Errorf_w (prefix : string) (err : error) : error :=
  wrapError (prefix +:+ Error err) err.

(** [errors.Unwrap(e)] *)
Definition Unwrap (e : error) : option error :=
  match e with
  | wrapError _ err => Some err
  | _ => None
  end.

(** Outcome of a call: a value, or a run-time panic. *)
Inductive outcome (A : Type) : Type :=
| Returns (a : A)
| Panics (msg : string).
Arguments Returns {A} a.
Arguments Panics {A} msg.

(** A method with receiver of type [S]: maps the receiver's fields before
    the call to the outcome and the fields after it. *)
Definition method (S A : Type) : Type := S → outcome A * S.

Definition ret {S A} (a : A) : method S A := fun s => (Returns a, s).

Definition bind {S A B} (c : method S A) (k : A → method S B) : method S B :=
  fun s =>
    match c s with
    | (Returns a, s') => k a s'
    | (Panics msg, s') => (Panics msg, s')
    end.

(** [defer d; body]: [d] runs when [body] is left, also by a panic. *)
Definition defer {S A} (d : method S unit) (body : method S A) : method S A :=
  fun s =>
    let '(r, s1) := body s in
    match d s1 with
    | (Returns _, s2) => (r, s2)
    | (Panics msg, s2) => (Panics msg, s2)
    end.

Definition result {S A} (c : method S A) (s : S) : outcome A := (c s).1.
Definition after {S A} (c : method S A) (s : S) : S := (c s).2.

End Go.

Import Go.

Notation "c >>= k" := (Go.bind c k) (at level 50, left associativity).
Notation "c >> k" := (Go.bind c (fun _ => k)) (at level 50, left associativity).

(** ** encoding/gob

    The part of Go's [encoding/gob] that [GobEncode] and [GobDecode] run:
    one top-level value of type [map[K]V] whose key and element types are
    predeclared ones (bool, int, uint, string).  A stream is a sequence of
    messages, each a byte count followed by that many bytes.  A message
    that starts with a negative type id defines the wire type of that id;
    a message that starts with a type id that is not negative carries a
    value: a zero field delta, the number of pairs, then each key followed
    by its element.

    Two things are decided by the run and not by the program text: the id
    the process has given to the map type (ids are handed out from
    [firstUserId] on, in the order in which the process meets types) and
    the order in which a call ranges over the map.  Both are arguments of
    the encoder here. *)

Module gob.

#[export] Instance byte_eq_dec : EqDecision byte := Byte.byte_eq_dec.

(** A decoding step either yields a value or raises an error, which
    [catchError] hands back to the caller of [Decode]. *)
Inductive res (A : Type) : Type :=
| Ok (a : A)
| Err (e : error).
Arguments Ok {A} a.
Arguments Err {A} e.

Definition and_then {A B} (r : res A) (k : A → res B) : res B :=
  match r with
  | Ok a => k a
  | Err e => Err e
  end.

(** [uint8(z)] and back. *)
Definition uint8 (z : Z) : byte := default x00 (Byte.of_N (Z.to_N (z mod 256))).
Definition Z_of_byte (b : byte) : Z := Z.of_N (Byte.to_N b).

Definition uintSize : Z := 8.
(** [tooBig = (1 << 30) << (^uint(0) >> 62)] on a 64-bit platform *)
Definition tooBig : Z := 2 ^ 33.
Definition firstUserId : Z := 64.

(** [errorf(format, args...)] raises [fmt.Errorf("gob: "+format, args...)]. *)
Definition errorf (msg : string) : error := errors_New ("gob: " +:+ msg).

Definition errBadUint : error := errors_New "gob: encoded unsigned integer out of range".
Definition errBadCount : error := errors_New "invalid message length".
Definition errBadType : error := errors_New "gob: unknown type id or corrupted data".
Definition errRange : error := errors_New "gob: bad data: field numbers out of bounds".

(** [overflow(name)]: the name stands between double quotes. *)
Definition overflow (name : string) : error :=
  let quote := String (Ascii.ascii_of_nat 34) EmptyString in
  errors_New ("value for " +:+ quote +:+ name +:+ quote +:+ " out of range").

(** [binary.BigEndian.PutUint64(b, v)] *)
Definition PutUint64 (v : Z) : list byte :=
  [uint8 (v ≫ 56); uint8 (v ≫ 48); uint8 (v ≫ 40); uint8 (v ≫ 32);
   uint8 (v ≫ 24); uint8 (v ≫ 16); uint8 (v ≫ 8); uint8 v].

(** The last [n] bytes of [x], most significant first: what is left of
    [PutUint64 x] after its first [8 - n] bytes. *)
Fixpoint be_bytes (n : nat) (x : Z) : list byte :=
  match n with
  | O => []
  | S n' => uint8 (x ≫ (8 * Z.of_nat n')) :: be_bytes n' x
  end.

(** [bits.LeadingZeros64(x)] *)
Definition LeadingZeros64 (x : Z) : Z :=
  if x <=? 0 then 64 else 63 - Z.log2 x.

(** [encodeUint]: a value below 128 is one byte; otherwise the negated
    byte count, then the bytes in big-endian order without leading zero
    bytes. *)
Definition encodeUint (x : Z) : list byte :=
  if x <=? 0x7F then [uint8 x]
  else
    let bc := LeadingZeros64 x ≫ 3 in
    uint8 (bc - uintSize) :: drop (Z.to_nat bc) (PutUint64 x).

(** [encodeInt]: the sign goes to bit 0, a negative value is complemented;
    the conversion to [uint64] wraps. *)
Definition encodeInt (i : Z) : list byte :=
  let x := if i <? 0 then Z.lor (Z.lnot i ≪ 1) 1 else i ≪ 1 in
  encodeUint (x mod 2 ^ 64).

(** [x = x<<8 | uint64(b)] over the bytes of [buf] *)
Definition be_value (buf : list byte) : Z :=
  fold_left (fun x b => Z.lor (x ≪ 8) (Z_of_byte b)) buf 0.

(** [decodeUint] on the message buffer. *)
Definition decodeUint (b : list byte) : res (Z * list byte) :=
  match b with
  | [] => Err io_EOF
  | b0 :: buf =>
      if Z_of_byte b0 <=? 0x7f then Ok (Z_of_byte b0, buf)
      else
        let n := 256 - Z_of_byte b0 in
        if uintSize <? n then Err errBadUint
        else if Z.of_nat (length buf) <? n then
          Err (errorf ("invalid uint data length " +:+ pretty n
                         +:+ ": exceeds input size "
                         +:+ pretty (Z.of_nat (length buf))))
        else Ok (be_value (take (Z.to_nat n) buf), drop (Z.to_nat n) buf)
  end.

(** [toInt]: bit 0 is the sign; [x >> 1] of a [uint64] fits an [int64]. *)
Definition toInt (x : Z) : Z :=
  if Z.testbit x 0 then Z.lnot (x ≫ 1) else x ≫ 1.

(** [decodeInt] *)
Definition decodeInt (b : list byte) : res (Z * list byte) :=
  and_then (decodeUint b) (fun '(x, buf) => Ok (toInt x, buf)).

(** [decodeUintReader] on the input stream: running out of input inside
    the number is an unexpected end of file. *)
Definition decodeUintReader (r : list byte) : res (Z * list byte) :=
  match r with
  | [] => Err io_EOF
  | b0 :: buf =>
      if Z_of_byte b0 <=? 0x7f then Ok (Z_of_byte b0, buf)
      else
        let n := 256 - Z_of_byte b0 in
        if uintSize <? n then Err errBadUint
        else if Z.of_nat (length buf) <? n then Err io_ErrUnexpectedEOF
        else Ok (be_value (take (Z.to_nat n) buf), drop (Z.to_nat n) buf)
  end.

(** [nextInt]: a type id at the head of a message, read as the stream
    reader reads a number. *)
Definition nextInt (b : list byte) : res (Z * list byte) :=
  and_then (decodeUintReader b) (fun '(x, buf) => Ok (toInt x, buf)).

(** [int(n)] of a [uint64]. *)
Definition int_of_uint64 (n : Z) : Z := if n <? 2 ^ 63 then n else n - 2 ^ 64.

(** The predeclared types of gob and their ids. *)
Inductive predeclared : Type :=
| tBool | tInt | tUint | tFloat | tBytes | tString | tComplex | tInterface.

Definition idOf (t : predeclared) : Z :=
  match t with
  | tBool => 1 | tInt => 2 | tUint => 3 | tFloat => 4
  | tBytes => 5 | tString => 6 | tComplex => 7 | tInterface => 8
  end.

(** What gob knows of a key or element type: the predeclared type it is
    sent as (or the error of looking the type up, for a type gob cannot
    send), how a value is written, how it is read back, which values the
    Go type has, and the name of the type. *)
Class GobType (T : Type) : Type := {
  typeId : res predeclared;
  encOp : T → list byte;
  decOp : list byte → res (T * list byte);
  goval : T → Prop;
  goType : string;
}.

(** [bool]: type id 1, [encBool]/[decBool]. *)
#[export] Instance bool_gob : GobType bool := {|
  typeId := Ok tBool;
  encOp := fun b : bool => encodeUint (if b then 1 else 0);
  decOp := fun buf =>
    and_then (decodeUint buf) (fun '(x, buf1) => Ok (negb (x =? 0), buf1));
  goval := fun _ => True;
  goType := "bool";
|}.

(** [int]: type id 2, [encInt]/[decInt]. *)
#[export] Instance int_gob : GobType Z := {|
  typeId := Ok tInt;
  encOp := encodeInt;
  decOp := decodeInt;
  goval := fun i : Z => - 2 ^ 63 ≤ i < 2 ^ 63;
  goType := "int";
|}.

(** [uint]: type id 3, [encUint]/[decUint]. *)
#[export] Instance uint_gob : GobType N := {|
  typeId := Ok tUint;
  encOp := fun n : N => encodeUint (Z.of_N n);
  decOp := fun buf =>
    and_then (decodeUint buf) (fun '(x, buf1) => Ok (Z.to_N x, buf1));
  goval := fun n : N => Z.of_N n < 2 ^ 64;
  goType := "uint";
|}.

(** [getLength]: the byte count of a string, checked against what is left
    of the message; [(0, false)] for a bad count. *)
Definition getLength (b : list byte) : res (Z * bool * list byte) :=
  and_then (decodeUint b) (fun '(n, buf) =>
    let n := int_of_uint64 n in
    if (n <? 0) || (Z.of_nat (length buf) <? n) || (tooBig <=? n)
    then Ok (0, false, buf)
    else Ok (n, true, buf)).

Definition encString (s : string) : list byte :=
  encodeUint (Z.of_nat (String.length s)) ++ String.list_byte_of_string s.

Definition decString (b : list byte) : res (string * list byte) :=
  and_then (getLength b) (fun '(n, ok, buf) =>
    if ok then
      Ok (String.string_of_list_byte (take (Z.to_nat n) buf), drop (Z.to_nat n) buf)
    else Err (errorf ("bad string slice length: " +:+ pretty n))).

(** [string]: type id 6, [encString]/[decString]. *)
#[export] Instance string_gob : GobType string := {|
  typeId := Ok tString;
  encOp := encString;
  decOp := decString;
  goval := fun _ => True;
  goType := "string";
|}.

(** [chan int]: a channel cannot be sent. *)
Inductive chan_int : Type := chan_at (addr : positive).

#[export] Instance chan_int_gob : GobType chan_int := {|
  typeId := Err (errors_New "gob NewTypeObject can't handle type: chan int");
  encOp := fun _ => [];
  decOp := fun _ => Err errBadType;
  goval := fun _ => True;
  goType := "chan int";
|}.

(** A type is sent faithfully when reading back what was written for one
    of its values gives that value and leaves what follows it.  Values
    whose encoding does not fit a message are never sent. *)
Definition round_trips (T : Type) `{GobType T} : Prop :=
  ∀ (x : T) (rest : list byte),
    goval x → Z.of_nat (length (encOp x)) < tooBig →
    decOp (encOp x ++ rest) = Ok (x, rest).

(** Wire types *)

(** [CommonType] and [mapType], as they travel in a type definition. *)
Record CommonType : Type := { Name : string; Id : Z }.
Record mapType : Type := { MapCommon : CommonType; Key : Z; Elem : Z }.

(** A field of type [typeId], an [int32]. *)
Definition decInt32 (field : string) (b : list byte) : res (Z * list byte) :=
  and_then (decodeInt b) (fun '(v, buf) =>
    if (v <? - 2 ^ 31) || (2 ^ 31 - 1 <? v) then Err (overflow field)
    else Ok (v, buf)).

(** The loop of [decodeStruct] over a struct of [nfields] fields: a field
    delta, then the field, until a zero delta or the end of the buffer.
    Every round raises the field number, so [nfields] rounds and one for
    the zero delta are all there can be. *)
Fixpoint structLoop {S : Type} (rounds : nat) (nfields : Z)
    (op : Z → S → list byte → res (S * list byte))
    (fieldnum : Z) (st : S) (b : list byte) : res (S * list byte) :=
  match rounds with
  | O => Err errRange
  | Datatypes.S rounds' =>
      match b with
      | [] => Ok (st, b)
      | _ :: _ =>
          and_then (decodeUint b) (fun '(delta, b1) =>
            let delta := int_of_uint64 delta in
            if delta <? 0 then
              Err (errorf "decode: corrupted data: negative delta")
            else if delta =? 0 then Ok (st, b1)
            else if nfields - delta <=? fieldnum then Err errRange
            else
              and_then (op (fieldnum + delta) st b1) (fun '(st', b2) =>
                structLoop rounds' nfields op (fieldnum + delta) st' b2))
      end
  end.

Definition decodeCommonType (b : list byte) : res (CommonType * list byte) :=
  structLoop 3 2
    (fun fieldnum st b =>
       if fieldnum =? 0 then
         and_then (decString b) (fun '(s, b1) => Ok ({| Name := s; Id := Id st |}, b1))
       else
         and_then (decInt32 "Id" b) (fun '(i, b1) => Ok ({| Name := Name st; Id := i |}, b1)))
    (-1) {| Name := EmptyString; Id := 0 |} b.

Definition decodeMapType (b : list byte) : res (mapType * list byte) :=
  structLoop 4 3
    (fun fieldnum st b =>
       if fieldnum =? 0 then
         and_then (decodeCommonType b) (fun '(c, b1) =>
           Ok ({| MapCommon := c; Key := Key st; Elem := Elem st |}, b1))
       else if fieldnum =? 1 then
         and_then (decInt32 "Key" b) (fun '(i, b1) =>
           Ok ({| MapCommon := MapCommon st; Key := i; Elem := Elem st |}, b1))
       else
         and_then (decInt32 "Elem" b) (fun '(i, b1) =>
           Ok ({| MapCommon := MapCommon st; Key := Key st; Elem := i |}, b1)))
    (-1) {| MapCommon := {| Name := EmptyString; Id := 0 |}; Key := 0; Elem := 0 |} b.

(** A definition of another kind of type than a map (array, slice, struct,
    or a type with its own encoder) is not read here: the embedding stops
    at it with this marker, and no statement below is about such a
    stream. *)
Definition otherWireType : error :=
  errors_New "(the definition of a type that is not a map)".

(** [wireType]: field 3 is [MapT]. *)
Definition decodeWireType (b : list byte) : res (option mapType * list byte) :=
  structLoop 8 7
    (fun fieldnum st b =>
       if fieldnum =? 3 then
         and_then (decodeMapType b) (fun '(mt, b1) => Ok (Some mt, b1))
       else Err otherWireType)
    (-1) None b.

Section MapCodec.
Context {K : Type} `{Countable K} {V : Type}.
Context {gobK : GobType K} {gobV : GobType V}.

(** What the run decides for one call of [Encode]. *)
Record run : Type := {
  mapId : Z;
  rangeOver : gmap K V → list (K * V);
}.

(** The id is one the process hands out (a [typeId] is an [int32]), and
    ranging over a map yields each of its pairs once. *)
Definition run_ok (r : run) : Prop :=
  firstUserId ≤ mapId r < 2 ^ 31
  ∧ ∀ g : gmap K V, rangeOver r g ≡ₚ map_to_list g.

(** The run of a process that has met no other type, ranging in the order
    of [maps.All]. *)
Definition first_run : run :=
  {| mapId := firstUserId; rangeOver := map_to_list |}.

(** The [wireType] sent for [map[K]V] under [id]: field [MapT] (delta 4),
    in it [CommonType] (delta 1) with an empty [Name] left out and [Id]
    (delta 2), then [Key] and [Elem] (delta 1 each); a zero delta closes
    each struct. *)
Definition typeDefinition (id kid vid : Z) : list byte :=
  encodeInt (- id)
    ++ encodeUint 4 ++ encodeUint 1
    ++ encodeUint 2 ++ encodeInt id ++ encodeUint 0
    ++ encodeUint 1 ++ encodeInt kid
    ++ encodeUint 1 ++ encodeInt vid ++ encodeUint 0
    ++ encodeUint 0.

Definition writeMessage (b : list byte) : res (list byte) :=
  if tooBig <=? Z.of_nat (length b)
  then Err (errors_New "gob: encoder: message too big")
  else Ok (encodeUint (Z.of_nat (length b)) ++ b).

(** [encodeMap]: the number of pairs, then each key and element, zero
    values included. *)
Definition encodeMap (pairs : list (K * V)) : list byte :=
  encodeUint (Z.of_nat (length pairs))
    ++ flat_map (fun kv => encOp kv.1 ++ encOp kv.2) pairs.

(** The bytes a fresh encoder writes for a map type of id [id] whose
    iteration yields [pairs]: the type definition, then the value. *)
Definition EncodePairs (id : Z) (pairs : list (K * V)) : res (list byte) :=
  and_then (typeId (T := K)) (fun kid =>
  and_then (typeId (T := V)) (fun vid =>
  and_then (writeMessage (typeDefinition id (idOf kid) (idOf vid))) (fun msg1 =>
  and_then (writeMessage (encodeInt id ++ encodeUint 0
                            ++ encodeMap pairs)) (fun msg2 =>
  Ok (msg1 ++ msg2))))).

(** [Encoder.Encode(mp)] on a fresh encoder, in run [r]. *)
Definition Encode (r : run) (mp : gomap K V) : res (list byte) :=
  EncodePairs (mapId r) (rangeOver r (entries mp)).

(** [recvMessage]: the count, then the whole message. *)
Definition recvMessage (r : list byte) : res (list byte * list byte) :=
  and_then (decodeUintReader r) (fun '(nbytes, r1) =>
    if tooBig <=? nbytes then Err errBadCount
    else if Z.of_nat (length r1) <? nbytes then Err io_ErrUnexpectedEOF
    else Ok (take (Z.to_nat nbytes) r1, drop (Z.to_nat nbytes) r1)).

(** [decodeTypeSequence]: messages are received until one carries a value;
    each one before it defines a type ([recvType]).  The result is the id
    of the value, what is left of its message, and the types defined, each
    with its [MapT] when it has one.
    A message holds at least one byte, so there are no more messages than
    bytes. *)
Fixpoint decodeTypeSequence (fuel : nat) (firstMessage : bool)
    (wire : gmap Z (option mapType)) (r : list byte)
  : res (Z * list byte * gmap Z (option mapType)) :=
  match fuel with
  | O => Err errBadType
  | S fuel' =>
      match recvMessage r with
      | Err io_EOF =>
          Err (if firstMessage then io_EOF else io_ErrUnexpectedEOF)
      | Err e => Err e
      | Ok (buf, r1) =>
          and_then (nextInt buf) (fun '(id, buf1) =>
            if 0 <=? id then Ok (id, buf1, wire)
            else if (- id <? firstUserId) || bool_decide (is_Some (wire !! (- id)))
            then Err (errors_New "gob: duplicate type received")
            else
              and_then (decodeWireType buf1) (fun '(wt, buf2) =>
                match buf2 with
                | _ :: _ => Err (errors_New "extra data in buffer")
                | [] => decodeTypeSequence fuel' false (<[- id := wt]> wire) r1
                end))
      end
  end.

(** [compatibleType] for the receiver's [map[K]V]: the id names a map
    type of the stream whose key and element ids are the receiver's. *)
Definition compatible (wire : gmap Z (option mapType)) (id : Z) : bool :=
  match wire !! id, typeId (T := K), typeId (T := V) with
  | Some (Some mt), Ok kid, Ok vid => (Key mt =? idOf kid) && (Elem mt =? idOf vid)
  | _, _, _ => false
  end.

(** The name of the remote type in the error of a mismatch.  The decoder
    first asks the registry of the process for the id; the embedding
    takes the registry to hold the predeclared types and none of the ids
    of the stream. *)
Definition typeString (wire : gmap Z (option mapType)) (id : Z) : string :=
  match wire !! id with
  | Some (Some mt) => Name (MapCommon mt)
  | Some None => "unknown type"
  | None =>
      if id =? 1 then "bool" else if id =? 2 then "int"
      else if id =? 3 then "uint" else if id =? 4 then "float"
      else if id =? 5 then "bytes" else if id =? 6 then "string"
      else if id =? 7 then "complex" else if id =? 8 then "interface"
      else "unknown type"
  end.

(** The type of the pointer handed to [Decode]. *)
Definition localType : string :=
  "*map[" +:+ goType (T := K) +:+ "]" +:+ goType (T := V).

(** The type sequence, the compilation of the decoding engine and the
    field delta of [decodeSingle]: what is left is the map. *)
Definition valueOfStream (data : list byte) : res (list byte) :=
  and_then (decodeTypeSequence (S (length data)) true ∅ data)
    (fun '(id, buf, wire) =>
       if compatible wire id then
         and_then (decodeUint buf) (fun '(delta, buf1) =>
           if delta =? 0 then Ok buf1
           else Err (errorf "decode: corrupted data: non-zero delta for singleton"))
       else
         Err (errors_New ("gob: decoding into local type " +:+ localType
                            +:+ ", received remote type "
                            +:+ typeString wire id))).

(** The loop of [decodeMap]: each pair is stored with [SetMapIndex] as
    soon as it is read. *)
Fixpoint decodePairs (n : nat) (buf : list byte) (value : gmap K V)
  : gmap K V * option error :=
  match n with
  | O => (value, None)
  | S n' =>
      match decOp buf with
      | Err e => (value, Some e)
      | Ok (key, buf1) =>
          match decOp buf1 with
          | Err e => (value, Some e)
          | Ok (elem, buf2) => decodePairs n' buf2 (<[key := elem]> value)
          end
      end
  end.

(** [decodeMap]: a nil map is allocated, a map that exists is kept and
    written to. *)
Definition decodeMap (buf : list byte) (value : gomap K V)
  : gomap K V * option error :=
  match decodeUint buf with
  | Err e => (value, Some e)
  | Ok (n, buf1) =>
      let n := int_of_uint64 n in
      let g := match value with Some g => g | None => ∅ end in
      let '(g', err) := decodePairs (Z.to_nat n) buf1 g in
      (Some g', err)
  end.

(** [Decoder.Decode(&value)] on a fresh decoder over [data]: the map the
    pointer refers to afterwards, and the error. *)
Definition Decode (data : list byte) (value : gomap K V)
  : gomap K V * option error :=
  match valueOfStream data with
  | Err e => (value, Some e)
  | Ok buf => decodeMap buf value
  end.

(** The values of type [map[K]V]: [len] is an [int], and keys and
    elements are values of their types. *)
Definition goval_map (mp : gomap K V) : Prop :=
  len mp < 2 ^ 63 ∧
  ∀ (k : K) (v : V), entries mp !! k = Some v → goval k ∧ goval v.
End MapCodec.
Arguments run K {_ _} V.

End gob.

(** ** package cachemap, the map operations *)

Module cachemap.

Section CacheMap.
Context {K : Type} `{Countable K} {V : Type} `{Zero V}.

(** [type CacheMap[K comparable, V any] struct { m map[K]V; lock sync.RWMutex }] *)
Record CacheMap : Type := { m : gomap K V }.

Definition NewCacheMap : CacheMap := {| m := make |}.

Definition Lock : method CacheMap unit := ret tt.
Definition Unlock : method CacheMap unit := ret tt.
Definition RLock : method CacheMap unit := ret tt.
Definition RUnlock : method CacheMap unit := ret tt.

(** [delete(cm.m, key)]: no-op on a nil map and on an absent key. *)
Definition DeleteWithoutLock (key : K) : method CacheMap unit :=
  fun cm =>
    match m cm with
    | Some g => (Returns tt, {| m := Some (delete key g) |})
    | None => (Returns tt, cm)
    end.

Definition Delete (key : K) : method CacheMap unit :=
  Lock >> defer Unlock (DeleteWithoutLock key).

(** [value, ok = cm.m[key]] *)
Definition GetWithoutLock (key : K) : method CacheMap (V * bool) :=
  fun cm =>
    match entries (m cm) !! key with
    | Some value => (Returns (value, true), cm)
    | None => (Returns (zero, false), cm)
    end.

Definition Get (key : K) : method CacheMap (V * bool) :=
  RLock >> defer RUnlock (GetWithoutLock key).

(** [cm.m[key] = value]: panics when [cm.m] is nil. *)
Definition SetWithoutLock (key : K) (value : V) : method CacheMap unit :=
  fun cm =>
    match m cm with
    | Some g => (Returns tt, {| m := Some (<[key := value]> g) |})
    | None => (Panics "assignment to entry in nil map", cm)
    end.

Definition Set_ (key : K) (value : V) : method CacheMap unit :=
  Lock >> defer Unlock (SetWithoutLock key value).

Definition LenWithoutLock : method CacheMap Z :=
  fun cm => (Returns (len (m cm)), cm).

Definition Len : method CacheMap Z :=
  RLock >> defer RUnlock LenWithoutLock.

(** [cm.m = make(map[K]V)] *)
Definition ClearWithoutLock : method CacheMap unit :=
  fun cm => (Returns tt, {| m := make |}).

Definition Clear : method CacheMap unit :=
  Lock >> defer Unlock ClearWithoutLock.

(** [maps.Collect(maps.All(cm.m))] *)
Definition ExportWithoutLock : method CacheMap (gomap K V) :=
  fun cm => (Returns (Collect (All (m cm))), cm).

Definition Export : method CacheMap (gomap K V) :=
  RLock >> defer RUnlock ExportWithoutLock.

(** [cm.m = m] *)
Definition ImportWithoutLock (mp : gomap K V) : method CacheMap unit :=
  fun cm => (Returns tt, {| m := mp |}).

Definition Import (mp : gomap K V) : method CacheMap unit :=
  Lock >> defer Unlock (ImportWithoutLock mp).

Context {gobK : gob.GobType K} {gobV : gob.GobType V}.

(** [r] is what the run decides for this call: the id of the map type in
    the process and the order of ranging over [cm.m]. *)
Definition GobEncode (r : gob.run K V) : method CacheMap (list byte * option error) :=
  RLock >> defer RUnlock (fun cm =>
    match gob.Encode r (m cm) with
    | gob.Err err => (Returns ([], Some (Errorf_w "gob encode error: " err)), cm)
    | gob.Ok buf => (Returns (buf, None), cm)
    end).

(** [decoder.Decode(&cm.m)] writes through the pointer to the field. *)
Definition GobDecode (data : list byte) : method CacheMap (option error) :=
  Lock >> defer Unlock (fun cm =>
    let '(mp, err) := gob.Decode data (m cm) in
    match err with
    | Some err => (Returns (Some (Errorf_w "gob decode error: " err)), {| m := mp |})
    | None => (Returns None, {| m := mp |})
    end).

End CacheMap.
Arguments CacheMap K {_ _} V.

End cachemap.

Import cachemap gob.

(** ** Sample containers and streams *)

Module samples.

(** [NewCacheMap[string, int]()] *)
Definition fresh : CacheMap string Z := NewCacheMap.

Definition holds_a1 : CacheMap string Z := after (Set_ "a" 1) NewCacheMap.
Definition holds_b2 : CacheMap string Z := after (Set_ "b" 2) NewCacheMap.
Definition holds_xy : CacheMap string Z :=
  after (Set_ "x" 10 >> Set_ "y" 20) NewCacheMap.

(** A [CacheMap[string, chan int]] with one entry. *)
Definition holds_chan : CacheMap string chan_int :=
  after (Set_ "c" (chan_at 1)) NewCacheMap.

(** The type definition message of [map[string]int] in a process that has
    met no other type (id 64), and in one that has met one (id 65). *)
Definition map_string_int_64 : list byte :=
  [x0d; x7f; x04; x01; x02; xff; x80; x00; x01; x0c; x01; x04; x00; x00].
Definition map_string_int : list byte :=
  [x0e; xff; x81; x04; x01; x02; xff; x82; x00; x01; x0c; x01; x04; x00; x00].

(** What [Encode] writes for ["b": 2] in the first run. *)
Definition stream_b2 : list byte :=
  map_string_int_64 ++ [x07; xff; x80; x00; x01; x01; x62; x04].

(** What [Encode] writes for ["x": 10, "y": 20] in the first run. *)
Definition stream_xy : list byte :=
  map_string_int_64
    ++ [x0a; xff; x80; x00; x02; x01; x79; x28; x01; x78; x14].

(** A run of a process that has met one type before, ranging in the
    opposite order, and what [Encode] writes for ["x": 10, "y": 20] in
    it. *)
Definition later_run : run string Z :=
  {| mapId := 65; rangeOver := fun g => reverse (map_to_list g) |}.
Definition stream_xy_later : list byte :=
  map_string_int
    ++ [x0a; xff; x82; x00; x02; x01; x78; x14; x01; x79; x28].

(** A value message of nine bytes that announces two pairs: ["a": 7],
    then a key of nine bytes of which one is there. *)
Definition stream_corrupt : list byte :=
  map_string_int ++ [x09; xff; x82; x00; x02; x01; x61; x0e; x09; x63].

(** A [CacheMap[string, string]] that holds ["a": "b"], and what [Encode]
    writes for it in the first run. *)
Definition holds_strings : CacheMap string string :=
  after (Set_ "a" "b") NewCacheMap.
Definition stream_strings : list byte :=
  [x0d; x7f; x04; x01; x02; xff; x80; x00; x01; x0c; x01; x0c; x00; x00]
    ++ [x08; xff; x80; x00; x01; x01; x61; x01; x62].

End samples.

(** * Facts *)

(** ** The integer encodings of gob *)

Section Uint.

Lemma Z_of_byte_uint8 (z : Z) : Z_of_byte (uint8 z) = z mod 256.
Proof.
  unfold Z_of_byte, uint8.
  assert (Hr : 0 ≤ z mod 256 < 256) by (apply Z.mod_pos_bound; lia).
  destruct (Byte.of_N (Z.to_N (z mod 256))) as [b|] eqn:Hb; simpl.
  - apply Byte.to_of_N in Hb. rewrite Hb. lia.
  - apply Byte.of_N_None_iff in Hb. lia.
Qed.

Lemma Z_of_byte_bound (b : byte) : 0 ≤ Z_of_byte b < 256.
Proof.
  unfold Z_of_byte. pose proof (Byte.to_N_bounded b). lia.
Qed.

Lemma lor_shiftl_add (a b k : Z) :
  0 ≤ k → 0 ≤ b < 2 ^ k → Z.lor (a ≪ k) b = a * 2 ^ k + b.
Proof.
  intros Hk Hb.
  rewrite <- Z.shiftl_mul_pow2 by lia.
  rewrite <- Z.lxor_lor, <- Z.add_nocarry_lxor; try reflexivity.
  all: apply Z.bits_inj'; intros n Hn; rewrite Z.land_spec, Z.bits_0.
  all: destruct (Z.lt_ge_cases n k) as [Hlt|Hge].
  all: try (rewrite Z.shiftl_spec_low by lia; reflexivity).
  all: destruct (Z.eq_dec b 0) as [->|Hb0];
    [rewrite Z.bits_0; apply andb_false_r|].
  all: rewrite (Z.bits_above_log2 b n); [apply andb_false_r|lia|].
  all: apply Z.log2_lt_pow2; [lia|].
  all: apply Z.lt_le_trans with (2 ^ k); [lia|].
  all: apply Z.pow_le_mono_r; lia.
Qed.

Lemma be_bytes_length n x : length (be_bytes n x) = n.
Proof. induction n; simpl; congruence. Qed.

Lemma be_value_be_bytes n x acc :
  0 ≤ x →
  fold_left (fun y b => Z.lor (y ≪ 8) (Z_of_byte b)) (be_bytes n x) acc
  = acc * 256 ^ Z.of_nat n + x mod 256 ^ Z.of_nat n.
Proof.
  intros Hx. revert acc. induction n as [|n IH]; intros acc.
  - simpl. rewrite Z.mod_1_r. lia.
  - cbn [be_bytes fold_left]. rewrite IH.
    rewrite lor_shiftl_add by (try lia; apply Z_of_byte_bound).
    rewrite Z_of_byte_uint8, Z.shiftr_div_pow2 by lia.
    replace (2 ^ (8 * Z.of_nat n)) with (256 ^ Z.of_nat n)
      by (rewrite Z.pow_mul_r by lia; reflexivity).
    rewrite Nat2Z.inj_succ, Z.pow_succ_r by lia.
    assert (Hp : 0 < 256 ^ Z.of_nat n) by (apply Z.pow_pos_nonneg; lia).
    rewrite (Z.mul_comm 256 (256 ^ Z.of_nat n)).
    rewrite (Z.rem_mul_r x (256 ^ Z.of_nat n) 256) by lia.
    change (2 ^ 8) with 256. lia.
Qed.

Lemma PutUint64_drop (k : nat) (x : Z) :
  (k ≤ 8)%nat → drop k (PutUint64 x) = be_bytes (8 - k) x.
Proof.
  intros Hk. do 9 (destruct k as [|k]; [reflexivity|]). lia.
Qed.

(** What the encoder writes for a large value: [n] is the number of
    significant bytes. *)
Lemma encodeUint_large (x : Z) :
  0x7F < x < 2 ^ 64 →
  ∃ n : nat, (1 ≤ n ≤ 8)%nat ∧ x < 256 ^ Z.of_nat n ∧
    encodeUint x = uint8 (- Z.of_nat n) :: be_bytes n x.
Proof.
  intros Hx. unfold encodeUint, LeadingZeros64, uintSize.
  destruct (Z.leb_spec x 127) as [?|_]; [lia|].
  destruct (Z.leb_spec x 0) as [?|_]; [lia|].
  assert (Hlog : 0 ≤ Z.log2 x < 64).
  { split; [apply Z.log2_nonneg|]. apply Z.log2_lt_pow2; lia. }
  rewrite Z.shiftr_div_pow2 by lia. change (2 ^ 3) with 8.
  set (bc := (63 - Z.log2 x) / 8).
  assert (Hbc : 0 ≤ bc ≤ 7 ∧ Z.log2 x < 8 * (8 - bc)).
  { unfold bc. pose proof (Z.div_mod (63 - Z.log2 x) 8 ltac:(lia)).
    pose proof (Z.mod_pos_bound (63 - Z.log2 x) 8 ltac:(lia)). lia. }
  exists (8 - Z.to_nat bc)%nat. split; [lia|]. split.
  - replace (Z.of_nat (8 - Z.to_nat bc)) with (8 - bc) by lia.
    replace (256 ^ (8 - bc)) with (2 ^ (8 * (8 - bc)))
      by (rewrite Z.pow_mul_r by lia; reflexivity).
    apply Z.lt_le_trans with (2 ^ (Z.log2 x + 1)).
    + pose proof (Z.log2_spec x ltac:(lia)) as Hs.
      replace (Z.log2 x + 1) with (Z.succ (Z.log2 x)) by lia. lia.
    + apply Z.pow_le_mono_r; lia.
  - rewrite PutUint64_drop by lia. f_equal. f_equal. lia.
Qed.

Lemma be_value_be_bytes_small n x :
  0 ≤ x < 256 ^ Z.of_nat n → be_value (be_bytes n x) = x.
Proof.
  intros Hx. unfold be_value. rewrite be_value_be_bytes by lia.
  rewrite Z.mod_small by lia. lia.
Qed.

(** Either reader of an unsigned integer gives back what [encodeUint]
    wrote and leaves the bytes behind it. *)
Lemma decodeUint_encodeUint (x : Z) (rest : list byte) :
  0 ≤ x < 2 ^ 64 → decodeUint (encodeUint x ++ rest) = Ok (x, rest).
Proof.
  intros Hx. destruct (Z.le_gt_cases x 0x7F) as [Hs|Hl].
  - unfold encodeUint. destruct (Z.leb_spec x 127) as [_|?]; [|lia].
    simpl. rewrite Z_of_byte_uint8, Z.mod_small by lia.
    destruct (Z.leb_spec x 127) as [_|?]; [reflexivity|lia].
  - destruct (encodeUint_large x ltac:(lia)) as (n & Hn & Hxn & ->).
    cbn [app decodeUint]. rewrite Z_of_byte_uint8.
    assert (Hm : - Z.of_nat n mod 256 = 256 - Z.of_nat n).
    { symmetry. apply (Z.mod_unique _ _ (-1)); lia. }
    rewrite Hm. unfold uintSize.
    destruct (Z.leb_spec (256 - Z.of_nat n) 127) as [?|_]; [lia|].
    replace (256 - (256 - Z.of_nat n)) with (Z.of_nat n) by lia.
    destruct (Z.ltb_spec 8 (Z.of_nat n)) as [?|_]; [lia|].
    rewrite length_app, be_bytes_length.
    destruct (Z.ltb_spec (Z.of_nat (n + length rest)) (Z.of_nat n)) as [?|_];
      [lia|].
    rewrite Nat2Z.id.
    rewrite take_app_length' by (symmetry; apply be_bytes_length).
    rewrite drop_app_length' by (symmetry; apply be_bytes_length).
    rewrite be_value_be_bytes_small by lia. reflexivity.
Qed.

Lemma decodeUintReader_encodeUint (x : Z) (rest : list byte) :
  0 ≤ x < 2 ^ 64 → decodeUintReader (encodeUint x ++ rest) = Ok (x, rest).
Proof.
  intros Hx. pose proof (decodeUint_encodeUint x rest Hx) as Hd.
  destruct (encodeUint x ++ rest) as [|b0 buf]; [discriminate|].
  cbn [decodeUint decodeUintReader] in *.
  destruct (Z_of_byte b0 <=? 127); [exact Hd|].
  destruct (uintSize <? 256 - Z_of_byte b0); [discriminate|].
  destruct (Z.of_nat (length buf) <? 256 - Z_of_byte b0);
    [discriminate|exact Hd].
Qed.

Lemma decodeInt_encodeInt (i : Z) (rest : list byte) :
  - 2 ^ 63 ≤ i < 2 ^ 63 → decodeInt (encodeInt i ++ rest) = Ok (i, rest).
Proof.
  intros Hi. unfold encodeInt, decodeInt, toInt.
  destruct (Z.ltb_spec i 0) as [Hneg|Hpos].
  - rewrite lor_shiftl_add by lia. unfold Z.lnot.
    change (2 ^ 1) with 2.
    rewrite Z.mod_small by lia.
    rewrite decodeUint_encodeUint by lia. cbn [and_then].
    replace (Z.pred (- i) * 2 + 1) with (2 * Z.pred (- i) + 1) by lia.
    rewrite Z.testbit_odd_0.
    rewrite Z.shiftr_div_pow2 by lia. change (2 ^ 1) with 2.
    replace ((2 * Z.pred (- i) + 1) / 2) with (Z.pred (- i))
      by (apply (Z.div_unique _ _ _ 1); lia).
    do 2 f_equal. lia.
  - rewrite Z.shiftl_mul_pow2 by lia. change (2 ^ 1) with 2.
    rewrite Z.mod_small by lia.
    rewrite decodeUint_encodeUint by lia. cbn [and_then].
    replace (i * 2) with (2 * i) by lia.
    rewrite Z.testbit_even_0.
    rewrite Z.shiftr_div_pow2 by lia. change (2 ^ 1) with 2.
    replace (2 * i / 2) with i
      by (apply (Z.div_unique _ _ _ 0); lia).
    reflexivity.
Qed.

Lemma nextInt_encodeInt (i : Z) (rest : list byte) :
  - 2 ^ 63 ≤ i < 2 ^ 63 → nextInt (encodeInt i ++ rest) = Ok (i, rest).
Proof.
  intros Hi. pose proof (decodeInt_encodeInt i rest Hi) as Hd.
  unfold decodeInt, nextInt, encodeInt in *.
  set (x := (if i <? 0 then Z.lor (Z.lnot i ≪ 1) 1 else i ≪ 1) mod 2 ^ 64) in *.
  assert (Hx : 0 ≤ x < 2 ^ 64) by (apply Z.mod_pos_bound; lia).
  rewrite decodeUintReader_encodeUint by exact Hx.
  rewrite decodeUint_encodeUint in Hd by exact Hx. exact Hd.
Qed.

Lemma decInt32_encodeInt (field : string) (i : Z) (rest : list byte) :
  - 2 ^ 31 ≤ i < 2 ^ 31 → decInt32 field (encodeInt i ++ rest) = Ok (i, rest).
Proof.
  intros Hi. unfold decInt32. rewrite decodeInt_encodeInt by lia.
  cbn [and_then].
  destruct (Z.ltb_spec i (- 2 ^ 31)) as [?|_]; [lia|].
  destruct (Z.ltb_spec (2 ^ 31 - 1) i) as [?|_]; [lia|]. reflexivity.
Qed.

Lemma encodeUint_nonempty (x : Z) : encodeUint x ≠ [].
Proof. unfold encodeUint. destruct (x <=? 127); discriminate. Qed.

End Uint.

(** ** Predeclared types *)

Section Elements.

Lemma int_round_trips : round_trips Z.
Proof.
  intros i rest Hi _. simpl in *. apply decodeInt_encodeInt. exact Hi.
Qed.

Lemma list_byte_of_string_length (s : string) :
  length (String.list_byte_of_string s) = String.length s.
Proof.
  unfold String.list_byte_of_string. rewrite length_map.
  induction s as [|a s IH]; simpl; congruence.
Qed.

Lemma encString_length (s : string) :
  (String.length s ≤ length (encString s))%nat.
Proof.
  unfold encString. rewrite length_app, list_byte_of_string_length. lia.
Qed.

Lemma string_round_trips : round_trips string.
Proof.
  intros s rest _ Hlen. simpl in *.
  pose proof (encString_length s) as Hs.
  unfold tooBig in Hlen. unfold decString, getLength, encString.
  rewrite <- app_assoc.
  rewrite decodeUint_encodeUint by lia. cbn [and_then].
  unfold int_of_uint64, tooBig.
  destruct (Z.ltb_spec (Z.of_nat (String.length s)) (2 ^ 63)) as [_|?]; [|lia].
  destruct (Z.ltb_spec (Z.of_nat (String.length s)) 0) as [?|_]; [lia|].
  rewrite length_app, list_byte_of_string_length.
  destruct (Z.ltb_spec (Z.of_nat (String.length s + length rest))
              (Z.of_nat (String.length s))) as [?|_]; [lia|].
  destruct (Z.leb_spec (2 ^ 33) (Z.of_nat (String.length s))) as [?|_]; [lia|].
  cbn [orb and_then]. rewrite Nat2Z.id.
  rewrite take_app_length' by (symmetry; apply list_byte_of_string_length).
  rewrite drop_app_length' by (symmetry; apply list_byte_of_string_length).
  rewrite String.string_of_list_byte_of_string. reflexivity.
Qed.

Lemma bool_round_trips : round_trips bool.
Proof.
  intros b rest _ _. simpl.
  rewrite decodeUint_encodeUint by (destruct b; lia).
  destruct b; reflexivity.
Qed.

Lemma uint_round_trips : round_trips N.
Proof.
  intros n rest Hn _. simpl in *.
  rewrite decodeUint_encodeUint by lia. cbn [and_then].
  rewrite N2Z.id. reflexivity.
Qed.

(** The ids of the predeclared types are below the first id of a user
    type. *)
Lemma idOf_range (t : predeclared) : 1 ≤ idOf t ≤ 8.
Proof. destruct t; simpl; lia. Qed.

End Elements.

(** ** Maps on the wire *)

Section MapFacts.
Context {K : Type} `{Countable K} {V : Type}.

(** Assigning pairs with distinct keys in turn: the pairs, over what the
    map held. *)
Lemma fold_left_assign (pairs : list (K * V)) (g : gmap K V) :
  NoDup pairs.*1 →
  fold_left (fun acc kv => <[kv.1 := kv.2]> acc) pairs g
  = list_to_map pairs ∪ g.
Proof.
  revert g. induction pairs as [|[k v] pairs IH]; intros g Hnd.
  - simpl. rewrite (left_id_L ∅ (∪)). reflexivity.
  - rewrite fmap_cons in Hnd. apply NoDup_cons in Hnd as [Hk Hnd].
    cbn [fold_left fst snd] in *.
    rewrite IH by exact Hnd. cbn [list_to_map foldr fst snd].
    rewrite <- insert_union_l. symmetry.
    apply insert_union_r. apply not_elem_of_list_to_map_1. exact Hk.
Qed.

Lemma Collect_All (mp : gomap K V) : Collect (All mp) = Some (entries mp).
Proof.
  unfold Collect, All. rewrite fold_left_assign by apply NoDup_fst_map_to_list.
  rewrite list_to_map_to_list, (right_id_L ∅ (∪)). reflexivity.
Qed.

Lemma len_make : len (make (K := K) (V := V)) = 0.
Proof. unfold len, make. simpl. rewrite map_size_empty. reflexivity. Qed.

End MapFacts.

(** Type definitions *)

Section WireTypes.

Lemma structLoop_field {S : Type} (rounds : nat) (nfields : Z)
      (op : Z → S → list byte → res (S * list byte))
      (fieldnum : Z) (st : S) (delta : Z) (rest : list byte) :
  0 < delta < 2 ^ 63 → fieldnum + delta < nfields →
  structLoop (Datatypes.S rounds) nfields op fieldnum st (encodeUint delta ++ rest)
  = and_then (op (fieldnum + delta) st rest) (fun '(st', b2) =>
      structLoop rounds nfields op (fieldnum + delta) st' b2).
Proof.
  intros Hdelta Hfield. cbn [structLoop].
  pose proof (decodeUint_encodeUint delta rest ltac:(lia)) as Hd.
  destruct (encodeUint delta ++ rest) as [|c l]; [discriminate|].
  rewrite Hd. cbn [and_then]. unfold int_of_uint64.
  destruct (Z.ltb_spec delta (2 ^ 63)) as [_|?]; [|lia].
  destruct (Z.ltb_spec delta 0) as [?|_]; [lia|].
  destruct (Z.eqb_spec delta 0) as [?|_]; [lia|].
  destruct (Z.leb_spec (nfields - delta) fieldnum) as [?|_]; [lia|].
  reflexivity.
Qed.

Lemma structLoop_end {S : Type} (rounds : nat) (nfields : Z)
      (op : Z → S → list byte → res (S * list byte))
      (fieldnum : Z) (st : S) (rest : list byte) :
  structLoop (Datatypes.S rounds) nfields op fieldnum st (encodeUint 0 ++ rest)
  = Ok (st, rest).
Proof. reflexivity. Qed.

Lemma decodeCommonType_written (id : Z) (rest : list byte) :
  - 2 ^ 31 ≤ id < 2 ^ 31 →
  decodeCommonType (encodeUint 2 ++ encodeInt id ++ encodeUint 0 ++ rest)
  = Ok ({| Name := EmptyString; Id := id |}, rest).
Proof.
  intros Hid. unfold decodeCommonType.
  rewrite structLoop_field by lia.
  change (-1 + 2 =? 0) with false. cbv iota.
  rewrite decInt32_encodeInt by exact Hid. cbn [and_then Name].
  apply structLoop_end.
Qed.

Lemma decodeMapType_written (id kid vid : Z) (rest : list byte) :
  - 2 ^ 31 ≤ id < 2 ^ 31 → - 2 ^ 31 ≤ kid < 2 ^ 31 →
  - 2 ^ 31 ≤ vid < 2 ^ 31 →
  decodeMapType (encodeUint 1 ++ encodeUint 2 ++ encodeInt id ++ encodeUint 0
                   ++ encodeUint 1 ++ encodeInt kid
                   ++ encodeUint 1 ++ encodeInt vid ++ encodeUint 0 ++ rest)
  = Ok ({| MapCommon := {| Name := EmptyString; Id := id |};
           Key := kid; Elem := vid |}, rest).
Proof.
  intros Hid Hkid Hvid. unfold decodeMapType.
  rewrite structLoop_field by lia.
  change (-1 + 1 =? 0) with true. cbv iota.
  rewrite decodeCommonType_written by exact Hid. cbn [and_then Key Elem].
  rewrite structLoop_field by lia.
  change (-1 + 1 + 1 =? 0) with false. change (-1 + 1 + 1 =? 1) with true.
  cbv iota.
  rewrite decInt32_encodeInt by exact Hkid. cbn [and_then MapCommon Elem].
  rewrite structLoop_field by lia.
  change (-1 + 1 + 1 + 1 =? 0) with false.
  change (-1 + 1 + 1 + 1 =? 1) with false. cbv iota.
  rewrite decInt32_encodeInt by exact Hvid. cbn [and_then MapCommon Key].
  apply structLoop_end.
Qed.

(** The decoder reads the definition the encoder writes for a map type as
    that map type. *)
Lemma typeDefinition_read (id kid vid : Z) :
  - 2 ^ 31 ≤ id < 2 ^ 31 → - 2 ^ 31 ≤ kid < 2 ^ 31 →
  - 2 ^ 31 ≤ vid < 2 ^ 31 →
  ∃ wireBytes,
    typeDefinition id kid vid = encodeInt (- id) ++ wireBytes
    ∧ decodeWireType wireBytes
      = Ok (Some {| MapCommon := {| Name := EmptyString; Id := id |};
                    Key := kid; Elem := vid |}, []).
Proof.
  intros Hid Hkid Hvid. eexists. split; [reflexivity|].
  unfold decodeWireType. rewrite structLoop_field by lia.
  change (-1 + 4 =? 3) with true. cbv iota.
  change (encodeUint 0) with (encodeUint 0 ++ []) at 3.
  rewrite decodeMapType_written by assumption. cbn [and_then].
  apply structLoop_end.
Qed.

End WireTypes.

Section Wire.
Context {K : Type} `{Countable K} {V : Type}.
Context {gobK : GobType K} {gobV : GobType V}.
Hypothesis keys_round_trip : round_trips K.
Hypothesis elems_round_trip : round_trips V.

Lemma recvMessage_message (b rest : list byte) :
  Z.of_nat (length b) < tooBig →
  recvMessage (encodeUint (Z.of_nat (length b)) ++ b ++ rest) = Ok (b, rest).
Proof.
  intros Hb. unfold recvMessage. unfold tooBig in Hb.
  rewrite decodeUintReader_encodeUint by lia. cbn [and_then]. unfold tooBig.
  destruct (Z.leb_spec (2 ^ 33) (Z.of_nat (length b))) as [?|_]; [lia|].
  rewrite length_app.
  destruct (Z.ltb_spec (Z.of_nat (length b + length rest))
              (Z.of_nat (length b))) as [?|_]; [lia|].
  rewrite Nat2Z.id, take_app_length, drop_app_length. reflexivity.
Qed.

Lemma recvMessage_last (b : list byte) :
  Z.of_nat (length b) < tooBig →
  recvMessage (encodeUint (Z.of_nat (length b)) ++ b) = Ok (b, []).
Proof.
  intros Hb. rewrite <- (app_nil_r b) at 2. apply recvMessage_message, Hb.
Qed.

Lemma writeMessage_Ok (b msg : list byte) :
  writeMessage b = Ok msg →
  Z.of_nat (length b) < tooBig ∧ msg = encodeUint (Z.of_nat (length b)) ++ b.
Proof.
  unfold writeMessage.
  destruct (Z.leb_spec tooBig (Z.of_nat (length b))); [discriminate|].
  intros [= <-]. split; [assumption|reflexivity].
Qed.

(** The shape of what the encoder writes. *)
Lemma EncodePairs_Ok (id : Z) (pairs : list (K * V)) (data : list byte) :
  EncodePairs id pairs = Ok data →
  ∃ kid vid,
    typeId (T := K) = Ok kid ∧ typeId (T := V) = Ok vid
    ∧ Z.of_nat (length (typeDefinition id (idOf kid) (idOf vid))) < tooBig
    ∧ Z.of_nat (length (encodeInt id ++ encodeUint 0 ++ encodeMap pairs))
      < tooBig
    ∧ data
      = (encodeUint (Z.of_nat (length (typeDefinition id (idOf kid) (idOf vid))))
           ++ typeDefinition id (idOf kid) (idOf vid))
        ++ encodeUint (Z.of_nat (length (encodeInt id ++ encodeUint 0
                                           ++ encodeMap pairs)))
        ++ encodeInt id ++ encodeUint 0 ++ encodeMap pairs.
Proof.
  unfold EncodePairs.
  destruct (typeId (T := K)) as [kid|]; [|discriminate].
  destruct (typeId (T := V)) as [vid|]; [|discriminate].
  cbn [and_then].
  destruct (writeMessage (typeDefinition _ _ _)) as [msg1|] eqn:H1;
    [|discriminate].
  cbn [and_then].
  destruct (writeMessage _) as [msg2|] eqn:H2 in |- *; [|discriminate].
  cbn [and_then]. intros [= <-].
  apply writeMessage_Ok in H1 as [Hl1 ->].
  apply writeMessage_Ok in H2 as [Hl2 ->].
  exists kid, vid. repeat split; assumption.
Qed.

(** The first message of such a stream defines the map type, whatever
    follows it. *)
Lemma decodeTypeSequence_definition (fuel : nat) (first : bool)
      (id kid vid : Z) (rest : list byte) :
  firstUserId ≤ id < 2 ^ 31 → 1 ≤ kid ≤ 8 → 1 ≤ vid ≤ 8 →
  Z.of_nat (length (typeDefinition id kid vid)) < tooBig →
  decodeTypeSequence (S fuel) first ∅
    ((encodeUint (Z.of_nat (length (typeDefinition id kid vid)))
        ++ typeDefinition id kid vid) ++ rest)
  = decodeTypeSequence fuel false
      {[ id := Some {| MapCommon := {| Name := EmptyString; Id := id |};
                       Key := kid; Elem := vid |} ]} rest.
Proof.
  intros Hid Hkid Hvid Hlen. unfold firstUserId in Hid.
  cbn [decodeTypeSequence].
  rewrite <- app_assoc, recvMessage_message by exact Hlen.
  destruct (typeDefinition_read id kid vid) as (w & -> & Hw); try lia.
  rewrite nextInt_encodeInt by lia. cbn [and_then].
  destruct (Z.leb_spec 0 (- id)) as [?|_]; [lia|].
  rewrite Z.opp_involutive. unfold firstUserId.
  destruct (Z.ltb_spec id 64) as [?|_]; [lia|].
  rewrite lookup_empty, bool_decide_eq_false_2 by (intros [? [=]]).
  cbn [orb]. rewrite Hw. cbn [and_then]. reflexivity.
Qed.

(** Reading [n] pairs that the encoder wrote assigns them in turn. *)
Lemma decodePairs_written (pairs : list (K * V)) (rest : list byte)
      (g : gmap K V) :
  (∀ k v, (k, v) ∈ pairs → goval k ∧ goval v) →
  Z.of_nat (length (flat_map (fun kv => encOp kv.1 ++ encOp kv.2) pairs))
    < tooBig →
  decodePairs (length pairs)
    (flat_map (fun kv => encOp kv.1 ++ encOp kv.2) pairs ++ rest) g
  = (fold_left (fun acc kv => <[kv.1 := kv.2]> acc) pairs g, None).
Proof.
  revert g. induction pairs as [|[k v] pairs IH]; intros g Hval Hlen.
  - reflexivity.
  - cbn [flat_map fst snd length decodePairs fold_left] in *.
    rewrite !length_app in Hlen.
    destruct (Hval k v) as [Hk Hv]; [left|].
    rewrite <- !app_assoc.
    rewrite keys_round_trip by (try assumption; lia).
    rewrite elems_round_trip by (try assumption; lia).
    apply IH; [|lia].
    intros k' v' Hin. apply Hval. right. exact Hin.
Qed.

Lemma encodeInt_length (i : Z) : (length (encodeInt i) ≤ 9)%nat.
Proof.
  unfold encodeInt, encodeUint.
  destruct (_ <=? 127); [simpl; lia|].
  cbn [length]. rewrite length_drop. simpl. lia.
Qed.

(** [Encode] succeeds when gob knows both types and the value message is
    below the size limit. *)
Lemma EncodePairs_succeeds (id : Z) (pairs : list (K * V))
      (kid vid : predeclared) :
  typeId (T := K) = Ok kid → typeId (T := V) = Ok vid →
  Z.of_nat (length (encodeInt id ++ encodeUint 0 ++ encodeMap pairs))
    < tooBig →
  ∃ data, EncodePairs id pairs = Ok data.
Proof.
  intros HkId HvId Hlen. unfold EncodePairs.
  rewrite HkId, HvId. cbn [and_then].
  unfold writeMessage at 1.
  destruct (Z.leb_spec tooBig
              (Z.of_nat (length (typeDefinition id (idOf kid) (idOf vid)))))
    as [Hbig|_].
  - exfalso. unfold typeDefinition in Hbig. rewrite !length_app in Hbig.
    pose proof (encodeInt_length (- id)). pose proof (encodeInt_length id).
    pose proof (encodeInt_length (idOf kid)).
    pose proof (encodeInt_length (idOf vid)).
    unfold tooBig in Hbig. simpl length in Hbig. lia.
  - cbn [and_then]. unfold writeMessage.
    destruct (Z.leb_spec tooBig (Z.of_nat (length
      (encodeInt id ++ encodeUint 0 ++ encodeMap pairs)))); [lia|].
    cbn [and_then]. eexists. reflexivity.
Qed.

(** The front of a stream the encoder wrote is accepted by a receiver of
    the same map type, whatever id the process used: what is left is the
    map. *)
Lemma valueOfStream_written (id : Z) (pairs : list (K * V)) (data : list byte) :
  firstUserId ≤ id < 2 ^ 31 →
  EncodePairs id pairs = Ok data →
  valueOfStream (K := K) (V := V) data = Ok (encodeMap pairs).
Proof.
  intros Hid Henc.
  destruct (EncodePairs_Ok id pairs data Henc)
    as (kid & vid & HkId & HvId & Hl1 & Hl2 & ->).
  pose proof (idOf_range kid) as Hkid. pose proof (idOf_range vid) as Hvid.
  unfold valueOfStream.
  match goal with
  | |- context [S (length ?d)] =>
      assert (Hfuel : ∃ fuel, length d = S fuel)
  end.
  { rewrite !length_app.
    pose proof (encodeUint_nonempty
                  (Z.of_nat (length (typeDefinition id (idOf kid) (idOf vid)))))
      as Hne.
    destruct (encodeUint _) as [|c l] in Hne |- *; [contradiction|].
    eexists. reflexivity. }
  destruct Hfuel as [fuel ->].
  rewrite decodeTypeSequence_definition by assumption.
  cbn [decodeTypeSequence].
  rewrite recvMessage_last by exact Hl2.
  unfold firstUserId in Hid.
  rewrite nextInt_encodeInt by lia. cbn [and_then].
  destruct (Z.leb_spec 0 id) as [_|?]; [|lia]. cbn [and_then].
  unfold compatible. rewrite lookup_singleton_eq, HkId, HvId. cbn [Key Elem].
  rewrite !Z.eqb_refl. cbn [andb].
  rewrite decodeUint_encodeUint by lia. cbn [and_then]. reflexivity.
Qed.

(** Decoding what the encoder wrote for pairs with distinct keys, under
    whatever id and in whatever order it ranged over them, into a map
    [value]: no error, and [value] holds these pairs over the pairs it
    held. *)
Lemma Decode_EncodePairs (id : Z) (pairs : list (K * V))
      (value : gomap K V) (data : list byte) :
  firstUserId ≤ id < 2 ^ 31 →
  NoDup pairs.*1 →
  Z.of_nat (length pairs) < 2 ^ 63 →
  (∀ k v, (k, v) ∈ pairs → goval k ∧ goval v) →
  EncodePairs id pairs = Ok data →
  Decode data value = (Some (list_to_map pairs ∪ entries value), None).
Proof.
  intros Hid Hnd Hsize Hval Henc. unfold Decode.
  rewrite (valueOfStream_written id pairs data Hid Henc).
  destruct (EncodePairs_Ok id pairs data Henc)
    as (kid & vid & _ & _ & _ & Hl2 & _).
  unfold decodeMap, encodeMap.
  rewrite !length_app in Hl2.
  unfold encodeMap in Hl2. rewrite length_app in Hl2.
  rewrite decodeUint_encodeUint by lia.
  unfold int_of_uint64.
  destruct (Z.ltb_spec (Z.of_nat (length pairs)) (2 ^ 63)) as [_|?]; [|lia].
  rewrite Nat2Z.id.
  rewrite <- (app_nil_r (flat_map _ _)).
  rewrite decodePairs_written by (try exact Hval; lia).
  rewrite fold_left_assign by exact Hnd.
  destruct value; reflexivity.
Qed.

(** Decoding what [Encode] wrote for [mp] in any run, into a map [value]:
    no error, and [value] holds the pairs of [mp] over the pairs it
    held. *)
Lemma Decode_Encode (r : run K V) (mp value : gomap K V) (data : list byte) :
  run_ok r → goval_map mp →
  Encode r mp = Ok data →
  Decode data value = (Some (entries mp ∪ entries value), None).
Proof.
  intros [Hid Hperm] [Hsize Hval] Henc. unfold Encode in Henc.
  specialize (Hperm (entries mp)).
  assert (Hnd : NoDup (rangeOver r (entries mp)).*1).
  { rewrite Hperm. apply NoDup_fst_map_to_list. }
  rewrite (Decode_EncodePairs (mapId r) _ value data Hid Hnd); try assumption.
  - rewrite (list_to_map_proper _ _ Hnd Hperm), list_to_map_to_list.
    reflexivity.
  - unfold len in Hsize. rewrite <- length_map_to_list, <- Hperm in Hsize.
    exact Hsize.
  - intros k v Hin. apply Hval. apply elem_of_map_to_list.
    rewrite <- Hperm. exact Hin.
Qed.

End Wire.

(** ** The container *)

Section Container.
Context {K : Type} `{Countable K} {V : Type} `{Zero V}.
Implicit Types (cm : CacheMap K V) (key k : K) (value v : V) (mp : gomap K V).

(** With the mutex free, a locked method does what its unlocked variant
    does. *)
Lemma Delete_unlocked key cm : Delete key cm = DeleteWithoutLock key cm.
Proof.
  unfold Delete, defer, Go.bind, Lock, Unlock, ret.
  destruct (DeleteWithoutLock key cm). reflexivity.
Qed.

Lemma Get_unlocked key cm : Get key cm = GetWithoutLock key cm.
Proof.
  unfold Get, defer, Go.bind, RLock, RUnlock, ret.
  destruct (GetWithoutLock key cm). reflexivity.
Qed.

Lemma Set_unlocked key value cm : Set_ key value cm = SetWithoutLock key value cm.
Proof.
  unfold Set_, defer, Go.bind, Lock, Unlock, ret.
  destruct (SetWithoutLock key value cm). reflexivity.
Qed.

Lemma Len_unlocked cm : Len cm = LenWithoutLock cm.
Proof. reflexivity. Qed.

Lemma Clear_unlocked cm : Clear cm = ClearWithoutLock cm.
Proof. reflexivity. Qed.

Lemma Export_unlocked cm : Export cm = ExportWithoutLock cm.
Proof. reflexivity. Qed.

Lemma Import_unlocked mp cm : Import mp cm = ImportWithoutLock mp cm.
Proof. reflexivity. Qed.

Lemma Get_lookup key cm :
  Get key cm
  = (Returns (match entries (m cm) !! key with
              | Some value => (value, true)
              | None => (zero, false)
              end), cm).
Proof.
  rewrite Get_unlocked. unfold GetWithoutLock.
  destruct (entries (m cm) !! key); reflexivity.
Qed.

(** What a container with an allocated map holds after [Set]. *)
Lemma Set_allocated key value cm (g : gmap K V) :
  m cm = Some g →
  Set_ key value cm = (Returns tt, {| m := Some (<[key := value]> g) |}).
Proof.
  intros Hg. rewrite Set_unlocked. unfold SetWithoutLock. rewrite Hg.
  reflexivity.
Qed.

(** [Set] leaves the pairs of other keys as they were, also where it
    panics. *)
Lemma Set_entries_other key value cm k :
  key ≠ k → entries (m (after (Set_ key value) cm)) !! k = entries (m cm) !! k.
Proof.
  intros Hne. unfold after. rewrite Set_unlocked. unfold SetWithoutLock.
  destruct cm as [[g|]]; simpl; [|reflexivity].
  apply lookup_insert_ne. exact Hne.
Qed.

Lemma Delete_entries key cm :
  entries (m (after (Delete key) cm)) = delete key (entries (m cm)).
Proof.
  unfold after. rewrite Delete_unlocked. unfold DeleteWithoutLock.
  destruct cm as [[g|]]; simpl; [reflexivity|].
  symmetry. apply delete_empty.
Qed.

(** C6: [Get] on an absent key returns the zero value of [V] and [false],
    and does not panic; so it does for every key on a newly constructed
    container; and [Get] leaves the container as it was, whatever the
    key. *)
Theorem Get_absent :
  (∀ cm key, entries (m cm) !! key = None →
             result (Get key) cm = Returns (zero, false))
  ∧ (∀ key, result (Get key) NewCacheMap = Returns (zero, false))
  ∧ (∀ cm key, after (Get key) cm = cm).
Proof.
  split; [|split].
  - intros cm key Habsent. unfold result. rewrite Get_lookup, Habsent.
    reflexivity.
  - intros key. unfold result. rewrite Get_lookup. simpl.
    rewrite lookup_empty. reflexivity.
  - intros cm key. unfold after. rewrite Get_lookup. reflexivity.
Qed.

(** C5, amended: on a container whose map is allocated (not nil),
    [Set(k, v1)] then [Set(k, v2)] return, [Get(k)] then returns
    [(v2, true)], and the container holds what it held before with [k]
    bound to [v2]: nothing of [v1] is left. *)
Theorem Set_overwrites cm k v1 v2 :
  m cm ≠ None →
  result (Set_ k v1 >> Set_ k v2 >> Get k) cm = Returns (v2, true)
  ∧ entries (m (after (Set_ k v1 >> Set_ k v2) cm))
    = <[k := v2]> (entries (m cm)).
Proof.
  intros Halloc. destruct cm as [[g|]]; [clear Halloc|contradiction].
  unfold result, after, Go.bind.
  rewrite (Set_allocated k v1 _ g) by reflexivity.
  rewrite (Set_allocated k v2 _ (<[k := v1]> g)) by reflexivity.
  rewrite Get_lookup. simpl. rewrite insert_insert_eq, lookup_insert_eq.
  split; reflexivity.
Qed.

(** C7: after [Clear] on any container, [Len] returns 0 and [Get] reports
    every key as absent; [Clear] does not panic and leaves the container
    equal to a newly constructed one. *)
Theorem Clear_empties cm :
  result Clear cm = Returns tt
  ∧ after Clear cm = NewCacheMap
  ∧ result Len (after Clear cm) = Returns 0
  ∧ ∀ key, result (Get key) (after Clear cm) = Returns (zero, false).
Proof.
  split; [reflexivity|]. split; [reflexivity|]. split.
  - unfold result, after. simpl. rewrite len_make. reflexivity.
  - intros key. unfold result. rewrite Get_lookup. simpl.
    rewrite lookup_empty. reflexivity.
Qed.

(** C8: [Delete] returns on every container and key, without panic or
    error; deleting an absent key leaves the container as it was; and
    deleting a key twice leaves the container as deleting it once. *)
Theorem Delete_idempotent cm key :
  result (Delete key) cm = Returns tt
  ∧ (entries (m cm) !! key = None → after (Delete key) cm = cm)
  ∧ after (Delete key >> Delete key) cm = after (Delete key) cm.
Proof.
  assert (Hdel : ∀ cm', Delete key cm'
                   = (Returns tt,
                      match m cm' with
                      | Some g => {| m := Some (delete key g) |}
                      | None => cm'
                      end)).
  { intros cm'. rewrite Delete_unlocked. unfold DeleteWithoutLock.
    destruct (m cm'); reflexivity. }
  unfold result, after, Go.bind. rewrite !Hdel.
  split; [reflexivity|]. destruct cm as [[g|]]; simpl; split;
    try reflexivity.
  - intros Habsent. rewrite delete_id by exact Habsent. reflexivity.
  - rewrite delete_delete_eq. reflexivity.
Qed.

(** C4: after [Import(mp)] on any container, [Export] returns a map that
    holds exactly the pairs of [mp], and [Get] reports every key that
    [mp] does not hold as absent, whatever the container held before. *)
Theorem Import_replaces cm mp :
  result (Import mp >> Export) cm = Returns (Some (entries mp))
  ∧ ∀ key, entries mp !! key = None →
           result (Get key) (after (Import mp) cm) = Returns (zero, false).
Proof.
  split.
  - unfold result, Go.bind. simpl. rewrite Collect_All. reflexivity.
  - intros key Habsent. unfold result. rewrite Get_lookup. simpl.
    rewrite Habsent. reflexivity.
Qed.

(** C10: for distinct keys [key] and [k], what [Get(k)] returns is the
    same after [Set(key, value)] as before it, and the same after
    [Delete(key)] as before it. *)
Theorem other_keys_untouched cm key value k :
  key ≠ k →
  result (Get k) (after (Set_ key value) cm) = result (Get k) cm
  ∧ result (Get k) (after (Delete key) cm) = result (Get k) cm.
Proof.
  intros Hne. unfold result. rewrite !Get_lookup. simpl.
  rewrite Set_entries_other by exact Hne.
  rewrite Delete_entries, lookup_delete_ne by exact Hne.
  split; reflexivity.
Qed.

End Container.

(** ** Encode and Decode *)

Section Serialization.
Context {K : Type} `{Countable K} {V : Type}.
Context {gobK : GobType K} {gobV : GobType V}.
Implicit Types (cm target : CacheMap K V) (data buf : list byte) (r : run K V).

Lemma GobEncode_Encode r cm :
  GobEncode r cm
  = (Returns match Encode r (m cm) with
             | Ok buf => (buf, None)
             | Err err => ([], Some (Errorf_w "gob encode error: " err))
             end, cm).
Proof.
  unfold GobEncode, defer, Go.bind, RLock, RUnlock, ret.
  destruct (Encode r (m cm)); reflexivity.
Qed.

Lemma GobDecode_Decode data cm :
  GobDecode data cm
  = (Returns (Errorf_w "gob decode error: " <$> (Decode data (m cm)).2),
     {| m := (Decode data (m cm)).1 |}).
Proof.
  unfold GobDecode, defer, Go.bind, Lock, Unlock, ret.
  destruct (Decode data (m cm)) as [mp [err|]]; reflexivity.
Qed.

(** A stream that fails before the pairs are reached (cut short, wrong
    type, bad framing) leaves the container as it was. *)
Lemma GobDecode_rejected_stream data cm (e : error) :
  valueOfStream (K := K) (V := V) data = Err e →
  GobDecode data cm = (Returns (Some (Errorf_w "gob decode error: " e)), cm).
Proof.
  intros Hrej. rewrite GobDecode_Decode. unfold Decode. rewrite Hrej.
  destruct cm. reflexivity.
Qed.

(** Decoding what a container encoded in any run, into any container: no
    error, and the target holds the decoded pairs over the pairs it held
    before. *)
Lemma GobDecode_GobEncode r cm target data :
  round_trips K → round_trips V → goval_map (m cm) → run_ok r →
  result (GobEncode r) cm = Returns (data, None) →
  GobDecode data target
  = (Returns None, {| m := Some (entries (m cm) ∪ entries (m target)) |}).
Proof.
  intros HK HV Hval Hrun. unfold result. rewrite GobEncode_Encode. simpl.
  destruct (Encode r (m cm)) as [buf|] eqn:Henc; [|discriminate].
  intros [= <-]. rewrite GobDecode_Decode.
  rewrite (Decode_Encode HK HV r (m cm) (m target) buf Hrun Hval Henc).
  reflexivity.
Qed.


(** C9: when [Encode] returns an error, the error wraps the error of the
    gob encoder as its cause, and the container is as it was before the
    call. *)
Theorem GobEncode_failure r cm buf err :
  result (GobEncode r) cm = Returns (buf, Some err) →
  (∃ cause, Encode r (m cm) = Err cause
            ∧ err = Errorf_w "gob encode error: " cause
            ∧ Unwrap err = Some cause)
  ∧ after (GobEncode r) cm = cm.
Proof.
  unfold result, after. rewrite GobEncode_Encode. simpl.
  destruct (Encode r (m cm)) as [out|cause]; [discriminate|].
  intros [= <- <-]. split; [|reflexivity].
  exists cause. repeat split; reflexivity.
Qed.

End Serialization.

(** ** Runs *)

Section Runs.
Import samples.

Lemma Get_absent_witness :
  entries (m holds_a1) !! "b" = None
  ∧ result (Get "b") holds_a1 = Returns (0, false).
Proof.
  split; [reflexivity|]. apply (proj1 Get_absent). reflexivity.
Defined.

(** C5, as stated, fails on a container whose map is nil: [Set] panics
    there, and with each panic recovered [Get] still reports the key as
    absent. *)
Lemma Set_panics_on_nil_map :
  result (Set_ "a" 1 >> Set_ "a" 2 >> Get "a") (after (Import None) fresh)
  = Panics "assignment to entry in nil map"
  ∧ result (Set_ "a" 1 >> Set_ "a" 2 >> Get "a") (after (Import None) fresh)
    ≠ Returns (2, true)
  ∧ result (Get "a")
      (after (Set_ "a" 2) (after (Set_ "a" 1) (after (Import None) fresh)))
    = Returns (0, false).
Proof. split; [reflexivity|]. split; [discriminate|reflexivity]. Qed.

Lemma Set_overwrites_witness :
  m holds_b2 ≠ None
  ∧ result (Set_ "a" 1 >> Set_ "a" 2 >> Get "a") holds_b2 = Returns (2, true)
  ∧ entries (m (after (Set_ "a" 1 >> Set_ "a" 2) holds_b2))
    = <["a" := 2]> (entries (m holds_b2)).
Proof.
  split; [discriminate|].
  apply (Set_overwrites holds_b2 "a" 1 2). discriminate.
Defined.

Lemma Delete_idempotent_witness :
  entries (m holds_a1) !! "b" = None
  ∧ after (Delete "b") holds_a1 = holds_a1.
Proof.
  split; [reflexivity|].
  apply (proj1 (proj2 (Delete_idempotent holds_a1 "b"))). reflexivity.
Defined.

Lemma Import_replaces_witness :
  entries (m holds_b2) !! "a" = None
  ∧ result (Get "a") (after (Import (m holds_b2)) holds_a1) = Returns (0, false).
Proof.
  split; [reflexivity|].
  apply (proj2 (Import_replaces holds_a1 (m holds_b2))). reflexivity.
Defined.

Lemma other_keys_untouched_witness :
  "a" ≠ "b"
  ∧ result (Get "b") (after (Set_ "a" 1) holds_b2) = result (Get "b") holds_b2
  ∧ result (Get "b") (after (Delete "a") holds_b2) = result (Get "b") holds_b2.
Proof.
  split; [discriminate|].
  apply (other_keys_untouched holds_b2 "a" 1 "b"). discriminate.
Defined.

Lemma holds_xy_goval : goval_map (m holds_xy).
Proof.
  split; [reflexivity|]. intros k v.
  change (entries (m holds_xy))
    with (<["y" := 20]> (<["x" := 10]> (∅ : gmap string Z))).
  rewrite !lookup_insert_Some, lookup_empty. simpl.
  intros [[_ <-]|[_ [[_ <-]|[_ [=]]]]]; (split; [exact I|lia]).
Defined.

Lemma first_run_ok {K : Type} `{Countable K} {V : Type} :
  run_ok (first_run (K := K) (V := V)).
Proof.
  split; [unfold first_run, firstUserId; cbn [mapId]; lia|].
  intros g. reflexivity.
Qed.

Lemma later_run_ok : run_ok later_run.
Proof.
  split; [unfold later_run, firstUserId; cbn [mapId]; lia|].
  intros g. cbn [later_run rangeOver]. apply reverse_Permutation.
Qed.

Lemma holds_b2_goval : goval_map (m holds_b2).
Proof.
  split; [reflexivity|]. intros k v.
  change (entries (m holds_b2)) with (<["b" := 2]> (∅ : gmap string Z)).
  rewrite lookup_insert_Some, lookup_empty. simpl.
  intros [[_ <-]|[_ [=]]]. split; [exact I|lia].
Defined.



Lemma GobEncode_failure_witness :
  result (GobEncode first_run) holds_chan
  = Returns ([], Some (Errorf_w "gob encode error: "
      (errors_New "gob NewTypeObject can't handle type: chan int")))
  ∧ (∃ cause, Encode first_run (m holds_chan) = Err cause
       ∧ Errorf_w "gob encode error: "
           (errors_New "gob NewTypeObject can't handle type: chan int")
         = Errorf_w "gob encode error: " cause
       ∧ Unwrap (Errorf_w "gob encode error: "
           (errors_New "gob NewTypeObject can't handle type: chan int"))
         = Some cause)
  ∧ after (GobEncode first_run) holds_chan = holds_chan.
Proof.
  split; [reflexivity|].
  apply (GobEncode_failure first_run holds_chan []). reflexivity.
Defined.

(** C1, on the code: the container holds ["a": 1]; [Decode] of a stream
    whose value message is corrupt after its first pair ["a": 7] returns
    an error, and [Get("a")] then returns [(7, true)]: the pair read
    before the failure stays in the container. *)
Theorem GobDecode_failure_keeps_parsed_pairs :
  result (Get "a") holds_a1 = Returns (1, true)
  ∧ result (GobDecode stream_corrupt) holds_a1
    = Returns (Some (Errorf_w "gob decode error: "
                       (errors_New "gob: bad string slice length: 0")))
  ∧ result (Get "a") (after (GobDecode stream_corrupt) holds_a1)
    = Returns (7, true).
Proof. repeat split; reflexivity. Qed.

(** C2, on the code: [stream_b2] is what [Encode] returns, in a process
    that has met no other type, on a container that holds only ["b": 2];
    [Decode] of it on a container that holds
    ["a": 1] returns no error, and afterwards that container holds both
    ["a": 1] and ["b": 2]: the prior entry survives. *)
Theorem GobDecode_success_keeps_prior_entries :
  result (GobEncode first_run) holds_b2 = Returns (stream_b2, None)
  ∧ result (GobDecode stream_b2) holds_a1 = Returns None
  ∧ result (Get "a") (after (GobDecode stream_b2) holds_a1) = Returns (1, true)
  ∧ result (Get "b") (after (GobDecode stream_b2) holds_a1) = Returns (2, true)
  ∧ result Len (after (GobDecode stream_b2) holds_a1) = Returns 2.
Proof. repeat split; reflexivity. Qed.

(** The scenario of a typical use: two entries are set, encoded, cleared
    and decoded back. *)
Example scenario_set_encode_clear_decode :
  result Len holds_xy = Returns 2
  ∧ result (GobEncode first_run) holds_xy = Returns (stream_xy, None)
  ∧ result Len (after Clear holds_xy) = Returns 0
  ∧ result (Clear >> GobDecode stream_xy >> Export) holds_xy
    = Returns (Some (entries (m holds_xy))).
Proof.
  repeat split; reflexivity.
Qed.

End Runs.

(** ** How the map operations compose *)

Section ContainerLaws.
Context {K : Type} `{Countable K} {V : Type} `{Zero V}.
Implicit Types (cm : CacheMap K V) (key k : K) (value v : V) (mp : gomap K V).

Lemma Delete_state key cm :
  Delete key cm
  = (Returns tt,
     match m cm with
     | Some g => {| m := Some (delete key g) |}
     | None => cm
     end).
Proof.
  rewrite Delete_unlocked. unfold DeleteWithoutLock.
  destruct (m cm); reflexivity.
Qed.

Lemma Set_nil key value cm :
  m cm = None →
  Set_ key value cm = (Panics "assignment to entry in nil map", cm).
Proof.
  intros Hnil. rewrite Set_unlocked. unfold SetWithoutLock. rewrite Hnil.
  reflexivity.
Qed.

Lemma Set_state key value cm :
  after (Set_ key value) cm
  = match m cm with
    | Some g => {| m := Some (<[key := value]> g) |}
    | None => cm
    end.
Proof.
  unfold after. destruct (m cm) as [g|] eqn:Hm.
  - rewrite (Set_allocated key value cm g Hm). reflexivity.
  - rewrite (Set_nil key value cm Hm). reflexivity.
Qed.

(** X1: On a container whose map is allocated, [Set(key, value)] returns and
    [Get(key)] then returns [(value, true)]. *)
Theorem Set_then_Get cm key value :
  m cm ≠ None →
  result (Set_ key value) cm = Returns tt
  ∧ result (Set_ key value >> Get key) cm = Returns (value, true).
Proof.
  intros Halloc. destruct (m cm) as [g|] eqn:Hm; [clear Halloc|contradiction].
  unfold result, Go.bind. rewrite (Set_allocated key value cm g Hm).
  rewrite Get_lookup. simpl. rewrite lookup_insert_eq. split; reflexivity.
Qed.

(** X2: After [Delete(key)], on every container, [Get(key)] reports the key as
    absent. *)
Theorem Delete_then_Get cm key :
  result (Delete key >> Get key) cm = Returns (zero, false).
Proof.
  unfold result, Go.bind. rewrite Delete_state, Get_lookup.
  destruct (m cm) as [g|] eqn:Hm; simpl.
  - rewrite lookup_delete_eq. reflexivity.
  - rewrite Hm. simpl. rewrite lookup_empty. reflexivity.
Qed.

(** X4: On an allocated map, [Set] of a key that is absent makes [Len] one
    larger, and [Set] of a key that is present leaves [Len] as it was. *)
Theorem Len_after_Set cm key value :
  m cm ≠ None →
  (entries (m cm) !! key = None →
   result Len (after (Set_ key value) cm) = Returns (len (m cm) + 1))
  ∧ (is_Some (entries (m cm) !! key) →
     result Len (after (Set_ key value) cm) = Returns (len (m cm))).
Proof.
  intros Halloc. rewrite Set_state.
  destruct (m cm) as [g|] eqn:Hm; [clear Halloc|contradiction].
  unfold result. simpl. unfold len. simpl. split.
  - intros Habsent. rewrite map_size_insert_None by exact Habsent.
    f_equal. lia.
  - intros Hpresent. rewrite map_size_insert_Some by exact Hpresent.
    reflexivity.
Qed.

(** X5: [Delete] of a key that is present makes [Len] one smaller, and [Delete]
    of a key that is absent leaves [Len] as it was. *)
Theorem Len_after_Delete cm key :
  (is_Some (entries (m cm) !! key) →
   result Len (after (Delete key) cm) = Returns (len (m cm) - 1))
  ∧ (entries (m cm) !! key = None →
     result Len (after (Delete key) cm) = Returns (len (m cm))).
Proof.
  unfold result. simpl. unfold len. rewrite Delete_entries. split.
  - intros Hpresent. rewrite map_size_delete_Some by exact Hpresent.
    destruct Hpresent as [v Hv].
    assert (size (entries (m cm)) ≠ 0%nat).
    { intros Hz. apply map_size_empty_iff in Hz. rewrite Hz in Hv.
      rewrite lookup_empty in Hv. discriminate. }
    f_equal. lia.
  - intros Habsent. rewrite map_size_delete_None by exact Habsent.
    reflexivity.
Qed.

(** X6: [Len] returns 0 exactly when [Get] reports every key as absent. *)
Theorem Len_zero_iff_all_absent cm :
  result Len cm = Returns 0
  ↔ ∀ key, result (Get key) cm = Returns (zero, false).
Proof.
  unfold result. simpl. unfold len. split.
  - intros [= Hz] key. rewrite Get_lookup. simpl.
    assert (Hempty : entries (m cm) = ∅) by (apply map_size_empty_iff; lia).
    rewrite Hempty, lookup_empty. reflexivity.
  - intros Habsent. f_equal.
    assert (Hempty : entries (m cm) = ∅).
    { apply map_empty. intros key. specialize (Habsent key).
      rewrite Get_lookup in Habsent. simpl in Habsent.
      destruct (entries (m cm) !! key); [discriminate|reflexivity]. }
    rewrite Hempty, map_size_empty. reflexivity.
Qed.

(** X7: [Export] returns an allocated map that holds exactly the pairs [Get]
    finds in the container, and leaves the container as it was. *)
Theorem Export_copies cm :
  result Export cm = Returns (Some (entries (m cm)))
  ∧ after Export cm = cm
  ∧ ∀ key, result (Get key) cm
           = Returns match entries (m cm) !! key with
                     | Some value => (value, true)
                     | None => (zero, false)
                     end.
Proof.
  split; [|split].
  - unfold result. simpl. rewrite Collect_All. reflexivity.
  - reflexivity.
  - intros key. unfold result. rewrite Get_lookup. reflexivity.
Qed.

(** X8: Importing what [Export] returned leaves every [Get] and [Len] as
    before, and the map allocated. *)
Theorem Export_then_Import cm :
  m (after (Export >>= Import) cm) ≠ None
  ∧ result Len (after (Export >>= Import) cm) = result Len cm
  ∧ ∀ key, result (Get key) (after (Export >>= Import) cm)
           = result (Get key) cm.
Proof.
  assert (Hst : after (Export >>= Import) cm = {| m := Some (entries (m cm)) |}).
  { unfold after, Go.bind. simpl. rewrite Collect_All. reflexivity. }
  rewrite Hst. split; [discriminate|]. split; [reflexivity|].
  intros key. unfold result. rewrite !Get_lookup. reflexivity.
Qed.

(** X9: After [Import(mp)], [Get] finds each pair of [mp] and [Len] is the
    length of [mp], whatever the container held. *)
Theorem Import_then_reads cm mp :
  result (Import mp >> Len) cm = Returns (len mp)
  ∧ ∀ key value, entries mp !! key = Some value →
                 result (Import mp >> Get key) cm = Returns (value, true).
Proof.
  split; [reflexivity|]. intros key value Hpair.
  unfold result, Go.bind. simpl.
  change (Get key {| m := mp |}).1 with (result (Get key) {| m := mp |}).
  unfold result. rewrite Get_lookup. simpl. rewrite Hpair. reflexivity.
Qed.

(** X10: [Set] on two distinct keys leaves the same container in either
    order. *)
Theorem Set_Set_commute cm k1 v1 k2 v2 :
  k1 ≠ k2 →
  after (Set_ k1 v1 >> Set_ k2 v2) cm = after (Set_ k2 v2 >> Set_ k1 v1) cm.
Proof.
  intros Hne. unfold after, Go.bind.
  destruct (m cm) as [g|] eqn:Hm.
  - rewrite (Set_allocated k1 v1 cm g Hm), (Set_allocated k2 v2 cm g Hm).
    rewrite (Set_allocated k2 v2 _ (<[k1 := v1]> g)) by reflexivity.
    rewrite (Set_allocated k1 v1 _ (<[k2 := v2]> g)) by reflexivity.
    simpl. rewrite insert_insert_ne by congruence. reflexivity.
  - rewrite (Set_nil k1 v1 cm Hm), (Set_nil k2 v2 cm Hm). reflexivity.
Qed.

(** X11: [Delete] undoes a [Set] of the same key just before it, and a [Set]
    makes a [Delete] of the same key just before it irrelevant. *)
Theorem Set_Delete_same_key cm key value :
  after (Set_ key value >> Delete key) cm = after (Delete key) cm
  ∧ after (Delete key >> Set_ key value) cm = after (Set_ key value) cm.
Proof.
  unfold after, Go.bind. rewrite Delete_state.
  destruct (m cm) as [g|] eqn:Hm.
  - rewrite (Set_allocated key value cm g Hm).
    rewrite (Set_allocated key value _ (delete key g)) by reflexivity.
    rewrite Delete_state. simpl.
    rewrite delete_insert_eq, insert_delete_eq. split; reflexivity.
  - rewrite (Set_nil key value cm Hm). split; reflexivity.
Qed.

(** X17: [Clear] makes every container usable, also one whose map was
    nil: [Set(key, value)] after it returns, [Get(key)] then returns
    [(value, true)] and [Len] returns 1. *)
Theorem Clear_then_Set cm key value :
  result (Clear >> Set_ key value >> Get key) cm = Returns (value, true)
  ∧ result (Clear >> Set_ key value >> Len) cm = Returns 1.
Proof.
  unfold result, Go.bind.
  change (Clear cm) with (Returns tt, NewCacheMap (K := K) (V := V)).
  cbv iota beta.
  rewrite (Set_allocated key value NewCacheMap ∅) by reflexivity.
  cbv iota beta. rewrite Get_lookup. simpl. rewrite lookup_insert_eq.
  split; [reflexivity|]. unfold len. simpl.
  rewrite map_size_insert_None by apply lookup_empty.
  rewrite map_size_empty. reflexivity.
Qed.

End ContainerLaws.

(** ** What Decode does to a container that holds entries *)

Section DecodeLaws.
Context {K : Type} `{Countable K} {V : Type} `{Zero V}.
Context {gobK : GobType K} {gobV : GobType V}.
Implicit Types (cm target : CacheMap K V) (data pre : list byte).

Lemma decodeUintReader_truncated (x : Z) (pre k : list byte) :
  0 ≤ x < 2 ^ 64 → pre ++ k = encodeUint x → k ≠ [] →
  ∃ e, decodeUintReader pre = Err e.
Proof.
  intros Hx Hsplit Hk. destruct pre as [|b0 pre]; [eexists; reflexivity|].
  destruct (Z.le_gt_cases x 0x7F) as [Hs|Hl].
  - unfold encodeUint in Hsplit.
    destruct (Z.leb_spec x 127) as [_|?]; [|lia].
    injection Hsplit as _ Hrest. apply app_eq_nil in Hrest as [_ ->].
    contradiction.
  - destruct (encodeUint_large x ltac:(lia)) as (n & Hn & _ & Henc).
    rewrite Henc in Hsplit. injection Hsplit as -> Hrest.
    assert (Hlen : (length pre < n)%nat).
    { apply (f_equal length) in Hrest.
      rewrite length_app, be_bytes_length in Hrest.
      destruct k; [contradiction|]. simpl in Hrest. lia. }
    cbn [decodeUintReader]. rewrite Z_of_byte_uint8.
    assert (Hm : - Z.of_nat n mod 256 = 256 - Z.of_nat n).
    { symmetry. apply (Z.mod_unique _ _ (-1)); lia. }
    rewrite Hm. unfold uintSize.
    destruct (Z.leb_spec (256 - Z.of_nat n) 127) as [?|_]; [lia|].
    destruct (Z.ltb_spec 8 (256 - (256 - Z.of_nat n))) as [?|_]; [lia|].
    destruct (Z.ltb_spec (Z.of_nat (length pre)) (256 - (256 - Z.of_nat n)))
      as [_|?]; [|lia].
    eexists. reflexivity.
Qed.

(** A message cut short is not received. *)
Lemma recvMessage_truncated (b pre k : list byte) :
  Z.of_nat (length b) < tooBig →
  pre ++ k = encodeUint (Z.of_nat (length b)) ++ b → k ≠ [] →
  ∃ e, recvMessage pre = Err e.
Proof.
  intros Hb Hsplit Hk.
  assert (Hcut : ∀ k0, b = k0 ++ k →
            ∃ e, recvMessage (encodeUint (Z.of_nat (length b)) ++ k0) = Err e).
  { intros k0 Hb0. unfold recvMessage. unfold tooBig in Hb.
    rewrite decodeUintReader_encodeUint by lia. cbn [and_then]. unfold tooBig.
    destruct (Z.leb_spec (2 ^ 33) (Z.of_nat (length b))) as [?|_]; [lia|].
    assert (Hlen : (length k0 < length b)%nat).
    { rewrite Hb0, length_app. destruct k; [contradiction|]. simpl. lia. }
    destruct (Z.ltb_spec (Z.of_nat (length k0)) (Z.of_nat (length b)))
      as [_|?]; [|lia].
    eexists. reflexivity. }
  apply app_eq_inv in Hsplit as [(k0 & -> & Hb0)|(k0 & Hc & Hk0)].
  - apply Hcut, Hb0.
  - destruct k0 as [|c k0].
    + rewrite app_nil_r in Hc. simpl in Hk0. subst k. rewrite <- Hc.
      rewrite <- (app_nil_r (encodeUint _)). apply Hcut. reflexivity.
    + unfold recvMessage. unfold tooBig in Hb.
      destruct (decodeUintReader_truncated (Z.of_nat (length b)) pre (c :: k0))
        as [e He]; [lia|symmetry; exact Hc|discriminate|].
      rewrite He. eexists. reflexivity.
Qed.

(** A stream that the encoder wrote, cut anywhere before its end, fails
    before the pairs are reached. *)
Lemma valueOfStream_truncated (id : Z) (pairs : list (K * V))
      (data pre k : list byte) :
  firstUserId ≤ id < 2 ^ 31 →
  EncodePairs id pairs = Ok data → pre ++ k = data → k ≠ [] →
  ∃ e, valueOfStream (K := K) (V := V) pre = Err e.
Proof.
  intros Hid Henc Hsplit Hk.
  destruct (EncodePairs_Ok id pairs data Henc)
    as (kid & vid & _ & _ & Hl1 & Hl2 & ->).
  pose proof (idOf_range kid) as Hkid. pose proof (idOf_range vid) as Hvid.
  set (def := typeDefinition id (idOf kid) (idOf vid)) in *.
  set (body := encodeInt id ++ encodeUint 0 ++ encodeMap pairs) in *.
  assert (Hcut : ∀ k0,
            k0 ++ k = encodeUint (Z.of_nat (length body)) ++ body →
            ∃ e, valueOfStream (K := K) (V := V)
                   ((encodeUint (Z.of_nat (length def)) ++ def) ++ k0) = Err e).
  { intros k0 Hk0. unfold valueOfStream.
    assert (Hfuel : ∃ fuel,
              length ((encodeUint (Z.of_nat (length def)) ++ def) ++ k0)
              = S fuel).
    { rewrite !length_app.
      pose proof (encodeUint_nonempty (Z.of_nat (length def))) as Hne.
      destruct (encodeUint _) as [|c l] in Hne |- *; [contradiction|].
      eexists. reflexivity. }
    destruct Hfuel as [fuel ->]. unfold def.
    rewrite decodeTypeSequence_definition by assumption.
    cbn [decodeTypeSequence].
    destruct (recvMessage_truncated body k0 k Hl2 Hk0 Hk) as [e ->].
    destruct e; eexists; reflexivity. }
  apply app_eq_inv in Hsplit as [(k0 & -> & Hk0)|(k0 & Hc & Hk0)].
  - apply Hcut. symmetry. exact Hk0.
  - destruct k0 as [|c k0].
    + rewrite app_nil_r in Hc. simpl in Hk0. subst k. rewrite <- Hc.
      rewrite <- (app_nil_r (_ ++ def)). apply Hcut. reflexivity.
    + unfold valueOfStream. cbn [decodeTypeSequence].
      destruct (recvMessage_truncated def pre (c :: k0))
        as [e He]; [exact Hl1|symmetry; exact Hc|discriminate|].
      rewrite He. destruct e; eexists; reflexivity.
Qed.

(** The loop of the map decoder only assigns: a key that is held stays
    held. *)
Lemma decodePairs_keeps_keys (n : nat) (buf : list byte) (g : gmap K V) (k : K) :
  is_Some (g !! k) → is_Some ((decodePairs n buf g).1 !! k).
Proof.
  revert buf g. induction n as [|n IH]; intros buf g Hk; [exact Hk|].
  cbn [decodePairs].
  destruct (decOp buf) as [[key buf1]|]; [|exact Hk].
  destruct (decOp buf1) as [[elem buf2]|]; [|exact Hk].
  apply IH. apply lookup_insert_is_Some'. right. exact Hk.
Qed.

Lemma Decode_keeps_keys data (value : gomap K V) (k : K) :
  is_Some (entries value !! k) →
  is_Some (entries (Decode data value).1 !! k).
Proof.
  intros Hk. unfold Decode.
  destruct (valueOfStream data) as [buf|]; [|exact Hk].
  unfold decodeMap. destruct (decodeUint buf) as [[n buf1]|]; [|exact Hk].
  destruct value as [g|]; simpl in Hk.
  - pose proof (decodePairs_keeps_keys
                  (Z.to_nat (int_of_uint64 n)) buf1 g k Hk) as Hkept.
    destruct (decodePairs _ buf1 g) as [g' err]. exact Hkept.
  - rewrite lookup_empty in Hk. destruct Hk as [? [=]].
Qed.

Lemma Get_found_iff (cm : CacheMap K V) (key : K) :
  (∃ value, result (Get key) cm = Returns (value, true))
  ↔ is_Some (entries (m cm) !! key).
Proof.
  unfold result. rewrite Get_lookup. simpl.
  destruct (entries (m cm) !! key) as [v|]; split.
  - intros _. eexists. reflexivity.
  - intros _. eexists. reflexivity.
  - intros [value [=]].
  - intros [? [=]].
Qed.

Lemma GobDecode_entries data cm :
  entries (m (after (GobDecode data) cm)) = entries (Decode data (m cm)).1.
Proof. unfold after. rewrite GobDecode_Decode. reflexivity. Qed.

(** X15: [Decode] never removes a key, whatever the bytes and whether it
    succeeds or fails: a key that [Get] found before is found after, and
    [Len] does not get smaller. *)
Theorem GobDecode_keeps_keys data cm :
  (∀ key value,
     result (Get key) cm = Returns (value, true) →
     ∃ value', result (Get key) (after (GobDecode data) cm)
               = Returns (value', true))
  ∧ ∃ n n', result Len cm = Returns n
            ∧ result Len (after (GobDecode data) cm) = Returns n'
            ∧ n ≤ n'.
Proof.
  split.
  - intros key value Hfound. apply Get_found_iff.
    rewrite GobDecode_entries. apply Decode_keeps_keys.
    apply Get_found_iff. exists value. exact Hfound.
  - do 2 eexists. split; [reflexivity|]. split; [reflexivity|].
    unfold len. rewrite GobDecode_entries.
    apply Nat2Z.inj_le. rewrite <- !size_dom. apply subseteq_size.
    intros key. rewrite !elem_of_dom. apply Decode_keeps_keys.
Qed.

(** X14: The bytes that [Encode] returned, in any run, cut anywhere before
    their end, make [Decode] return an error and leave the container as
    it was. *)
Theorem GobDecode_truncated (r : run K V) cm target data pre (k : list byte) :
  run_ok r →
  result (GobEncode r) cm = Returns (data, None) →
  pre ++ k = data → k ≠ [] →
  ∃ e, GobDecode pre target
       = (Returns (Some (Errorf_w "gob decode error: " e)), target).
Proof.
  intros [Hid _]. unfold result. rewrite GobEncode_Encode. simpl.
  destruct (Encode r (m cm)) as [buf|] eqn:Henc; [|discriminate].
  intros [= <-] Hsplit Hk. unfold Encode in Henc.
  destruct (valueOfStream_truncated (mapId r) _ buf pre k Hid Henc Hsplit Hk)
    as [e He].
  exists e. apply GobDecode_rejected_stream. exact He.
Qed.

(** X12: Let the key and element types be sent faithfully and [cm] hold a
    mapping of Go values.  [Decode] of what [Encode] returned for [cm], in
    any run, on a container [target] that holds entries: no error;
    afterwards [Get] returns the value of [cm] for every key [cm] holds
    and what it returned on [target] before for every other key, and the
    map of [target] is allocated. *)
Theorem GobDecode_merges (r : run K V) cm target data :
  round_trips K → round_trips V → goval_map (m cm) → run_ok r →
  result (GobEncode r) cm = Returns (data, None) →
  result (GobDecode data) target = Returns None
  ∧ m (after (GobDecode data) target) ≠ None
  ∧ ∀ key,
      result (Get key) (after (GobDecode data) target)
      = match entries (m cm) !! key with
        | Some value => Returns (value, true)
        | None => result (Get key) target
        end.
Proof.
  intros HK HV Hval Hrun Henc. unfold result, after.
  rewrite (GobDecode_GobEncode r cm target data HK HV Hval Hrun Henc). simpl.
  split; [reflexivity|]. split; [discriminate|].
  intros key. rewrite !Get_lookup. simpl.
  destruct (entries (m cm) !! key) as [value|] eqn:Hkey.
  - rewrite (lookup_union_Some_l _ _ _ _ Hkey). reflexivity.
  - rewrite lookup_union_r by exact Hkey. reflexivity.
Qed.

End DecodeLaws.

(** ** Streams of another map type *)

Section TypeMismatch.
Context {K : Type} `{Countable K} {V : Type}.
Context {gobK : GobType K} {gobV : GobType V}.
Context {K' : Type} `{Countable K'} {V' : Type}.
Context {gobK' : GobType K'} {gobV' : GobType V'}.

Lemma idOf_inj (s t : predeclared) : idOf s = idOf t → s = t.
Proof. destruct s, t; simpl; intros Heq; try reflexivity; lia. Qed.

(** X16: A stream that the encoder wrote for a map whose key or element
    type is sent as another predeclared type than the receiver's makes
    [Decode] return an error, which names the type of the receiver, and
    leaves the container as it was. *)
Theorem GobDecode_type_mismatch (target : CacheMap K V) (id : Z)
        (pairs : list (K' * V')) (data : list byte) :
  firstUserId ≤ id < 2 ^ 31 →
  EncodePairs id pairs = Ok data →
  ¬ (typeId (T := K) = typeId (T := K')
     ∧ typeId (T := V) = typeId (T := V')) →
  ∃ remote : string,
    GobDecode data target
    = (Returns (Some (Errorf_w "gob decode error: "
         (errors_New ("gob: decoding into local type "
                        +:+ localType (K := K) (V := V)
                        +:+ ", received remote type " +:+ remote)))),
       target).
Proof.
  intros Hid Henc Hne.
  destruct (EncodePairs_Ok id pairs data Henc)
    as (kid' & vid' & HkId' & HvId' & Hl1 & Hl2 & ->).
  pose proof (idOf_range kid') as Hkid. pose proof (idOf_range vid') as Hvid.
  exists EmptyString. apply GobDecode_rejected_stream. unfold valueOfStream.
  match goal with
  | |- context [S (length ?d)] =>
      assert (Hfuel : ∃ fuel, length d = S fuel)
  end.
  { rewrite !length_app.
    pose proof (encodeUint_nonempty
                  (Z.of_nat (length (typeDefinition id (idOf kid') (idOf vid')))))
      as Hnil.
    destruct (encodeUint _) as [|c l] in Hnil |- *; [contradiction|].
    eexists. reflexivity. }
  destruct Hfuel as [fuel ->].
  rewrite decodeTypeSequence_definition by assumption.
  cbn [decodeTypeSequence].
  rewrite recvMessage_last by exact Hl2.
  unfold firstUserId in Hid.
  rewrite nextInt_encodeInt by lia. cbn [and_then].
  destruct (Z.leb_spec 0 id) as [_|?]; [|lia]. cbn [and_then].
  assert (Hincompatible :
            compatible (K := K) (V := V)
              {[ id := Some {| MapCommon := {| Name := EmptyString; Id := id |};
                               Key := idOf kid'; Elem := idOf vid' |} ]} id
            = false).
  { unfold compatible. rewrite lookup_singleton_eq. cbn [Key Elem].
    destruct (typeId (T := K)) as [kid|]; [|reflexivity].
    destruct (typeId (T := V)) as [vid|]; [|reflexivity].
    destruct (Z.eqb_spec (idOf kid') (idOf kid)) as [Hk|]; [|reflexivity].
    destruct (Z.eqb_spec (idOf vid') (idOf vid)) as [Hv|]; [|reflexivity].
    exfalso. apply Hne. apply idOf_inj in Hk, Hv. subst.
    rewrite HkId', HvId'. split; reflexivity. }
  rewrite Hincompatible. unfold typeString. rewrite lookup_singleton_eq.
  reflexivity.
Qed.

End TypeMismatch.

(** ** Runs of the laws *)

Section LawRuns.
Import samples.

Lemma Set_then_Get_witness :
  m fresh ≠ None
  ∧ result (Set_ "a" 1) fresh = Returns tt
  ∧ result (Set_ "a" 1 >> Get "a") fresh = Returns (1, true).
Proof.
  split; [discriminate|]. apply (Set_then_Get fresh "a" 1). discriminate.
Defined.

Lemma Len_after_Set_witness :
  m holds_a1 ≠ None
  ∧ entries (m holds_a1) !! "b" = None
  ∧ result Len (after (Set_ "b" 2) holds_a1) = Returns (len (m holds_a1) + 1).
Proof.
  split; [discriminate|]. split; [reflexivity|].
  apply (proj1 (Len_after_Set holds_a1 "b" 2 ltac:(discriminate))).
  reflexivity.
Defined.

Lemma Len_after_Delete_witness :
  is_Some (entries (m holds_a1) !! "a")
  ∧ result Len (after (Delete "a") holds_a1) = Returns (len (m holds_a1) - 1).
Proof.
  assert (Hpresent : is_Some (entries (m holds_a1) !! "a"))
    by (exists 1; reflexivity).
  split; [exact Hpresent|].
  apply (proj1 (Len_after_Delete holds_a1 "a")). exact Hpresent.
Defined.

Lemma Import_then_reads_witness :
  entries (m holds_b2) !! "b" = Some 2
  ∧ result (Import (m holds_b2) >> Get "b") holds_a1 = Returns (2, true).
Proof.
  split; [reflexivity|].
  apply (proj2 (Import_then_reads holds_a1 (m holds_b2))). reflexivity.
Defined.

Lemma Set_Set_commute_witness :
  "a" ≠ "b"
  ∧ after (Set_ "a" 1 >> Set_ "b" 2) fresh = after (Set_ "b" 2 >> Set_ "a" 1) fresh.
Proof.
  split; [discriminate|]. apply (Set_Set_commute fresh "a" 1 "b" 2).
  discriminate.
Defined.

Lemma GobDecode_keeps_keys_witness :
  result (Get "a") holds_a1 = Returns (1, true)
  ∧ ∃ value', result (Get "a") (after (GobDecode stream_corrupt) holds_a1)
              = Returns (value', true).
Proof.
  split; [reflexivity|].
  apply (proj1 (GobDecode_keeps_keys stream_corrupt holds_a1) "a" 1).
  reflexivity.
Defined.

Lemma GobDecode_truncated_witness :
  run_ok (first_run (K := string) (V := Z))
  ∧ result (GobEncode first_run) holds_b2 = Returns (stream_b2, None)
  ∧ map_string_int_64 ++ [x07; xff; x80; x00; x01; x01; x62; x04] = stream_b2
  ∧ ∃ e, GobDecode map_string_int_64 holds_a1
         = (Returns (Some (Errorf_w "gob decode error: " e)), holds_a1).
Proof.
  split; [exact first_run_ok|]. split; [reflexivity|]. split; [reflexivity|].
  apply (GobDecode_truncated first_run holds_b2 holds_a1 stream_b2
           map_string_int_64 [x07; xff; x80; x00; x01; x01; x62; x04]);
    [exact first_run_ok|reflexivity|reflexivity|discriminate].
Defined.

Lemma GobDecode_merges_witness :
  run_ok later_run
  ∧ result (GobEncode later_run) holds_xy = Returns (stream_xy_later, None)
  ∧ result (GobDecode stream_xy_later) holds_a1 = Returns None
  ∧ m (after (GobDecode stream_xy_later) holds_a1) ≠ None
  ∧ ∀ key,
      result (Get key) (after (GobDecode stream_xy_later) holds_a1)
      = match entries (m holds_xy) !! key with
        | Some value => Returns (value, true)
        | None => result (Get key) holds_a1
        end.
Proof.
  split; [exact later_run_ok|]. split; [reflexivity|].
  apply (GobDecode_merges later_run holds_xy holds_a1 stream_xy_later).
  - exact string_round_trips.
  - exact int_round_trips.
  - exact holds_xy_goval.
  - exact later_run_ok.
  - reflexivity.
Defined.

Lemma GobDecode_type_mismatch_witness :
  EncodePairs 64 (All (m holds_strings)) = Ok stream_strings
  ∧ localType (K := string) (V := Z) = "*map[string]int"
  ∧ ∃ remote : string,
      GobDecode stream_strings holds_a1
      = (Returns (Some (Errorf_w "gob decode error: "
           (errors_New ("gob: decoding into local type "
                          +:+ localType (K := string) (V := Z)
                          +:+ ", received remote type " +:+ remote)))),
         holds_a1).
Proof.
  split; [reflexivity|]. split; [reflexivity|].
  apply (GobDecode_type_mismatch holds_a1 64 (All (m holds_strings))
           stream_strings).
  - unfold firstUserId. lia.
  - reflexivity.
  - intros [_ [=]].
Defined.

End LawRuns.
